(** * Verification of the rfind filter predicates

    Shallow embedding of the filter parsers and predicates of rfind:
    [src/filters/time.rs], [src/filters/filesize.rs],
    [src/filters/filetype.rs] and [src/permissions.rs]; and, from the
    spec, the parallel traversal engine, which is not in [src/].

    Conventions of the model:
    - a Rust [&str] is a [String.string]; [s.chars().next()],
      [s.chars().last()], [&s[1..]] and [&s[..len-1]] are written out below;
    - a [u64], [i64] or [u32] is a [Z]; the [*] of the source on [u64] is the
      release-build wrap-around multiplication [mul_u64];
    - a [std::time::Duration] is its length in nanoseconds (a [Z] between 0
      and [duration_max]); a [SystemTime] is a [Z] count of nanoseconds;
    - [Result<T, String>] is [Result T]. *)

From Stdlib Require Import ZArith Bool List String Ascii Lia.
Import ListNotations.
Open Scope string_scope.
Open Scope Z_scope.

(** ** Shared runtime pieces *)

Inductive Result (A : Type) : Type :=
| Ok : A -> Result A
| Err : string -> Result A.
Arguments Ok {A} _.
Arguments Err {A} _.

Definition is_ok {A} (r : Result A) : bool :=
  match r with Ok _ => true | Err _ => false end.

Definition u64_max : Z := 2 ^ 64 - 1.
Definition i64_min : Z := - 2 ^ 63.
Definition i64_max : Z := 2 ^ 63 - 1.

(** [a * b] on [u64], as compiled by [cargo build --release] (no overflow
    checks): the product modulo 2^64. *)
Definition mul_u64 (a b : Z) : Z := (a * b) mod 2 ^ 64.

(** [i64::unsigned_abs]. *)
Definition unsigned_abs (v : Z) : Z := Z.abs v.

(** *** [str] helpers *)

(** [s.chars().next()] *)
Definition chars_next (s : string) : option ascii :=
  match s with EmptyString => None | String c _ => Some c end.

(** [s.chars().last()] *)
Fixpoint chars_last (s : string) : option ascii :=
  match s with
  | EmptyString => None
  | String c EmptyString => Some c
  | String _ r => chars_last r
  end.

(** [&s[1..]] (used only after an ASCII first character). *)
Definition str_from1 (s : string) : string :=
  match s with EmptyString => EmptyString | String _ r => r end.

(** [&s[..n]] *)
Definition str_upto (n : nat) (s : string) : string := substring 0 n s.

(** *** [<i64 as FromStr>::from_str] and [<u64 as FromStr>::from_str]

    [core::num::from_str_radix] with radix 10: an optional sign byte
    ([-] only for signed types), then at least one decimal digit; the value
    is accumulated with checked multiplication and addition (subtraction for
    a negative number), any overflow being an error. *)

Definition to_digit (c : ascii) : option Z :=
  let n := nat_of_ascii c in
  if (48 <=? n)%nat && (n <=? 57)%nat then Some (Z.of_nat (n - 48)) else None.

(** Digits of a non-negative number, [checked_mul] then [checked_add]. *)
Fixpoint accumulate_pos (hi : Z) (s : string) (acc : Z) : option Z :=
  match s with
  | EmptyString => Some acc
  | String c r =>
      match to_digit c with
      | None => None
      | Some d =>
          let mul := acc * 10 in
          if hi <? mul then None
          else let acc' := mul + d in
               if hi <? acc' then None else accumulate_pos hi r acc'
      end
  end.

(** Digits of a negative number, [checked_mul] then [checked_sub]. *)
Fixpoint accumulate_neg (lo : Z) (s : string) (acc : Z) : option Z :=
  match s with
  | EmptyString => Some acc
  | String c r =>
      match to_digit c with
      | None => None
      | Some d =>
          let mul := acc * 10 in
          if mul <? lo then None
          else let acc' := mul - d in
               if acc' <? lo then None else accumulate_neg lo r acc'
      end
  end.

Definition is_sign (c : ascii) : bool :=
  Ascii.eqb c "+"%char || Ascii.eqb c "-"%char.

Definition from_str_int (is_signed_ty : bool) (lo hi : Z) (src : string)
  : option Z :=
  match src with
  | EmptyString => None
  | String c rest =>
      if is_sign c && String.eqb rest "" then None
      else if Ascii.eqb c "+"%char then accumulate_pos hi rest 0
      else if Ascii.eqb c "-"%char && is_signed_ty then accumulate_neg lo rest 0
      else accumulate_pos hi src 0
  end.

Definition parse_i64 (s : string) : option Z := from_str_int true i64_min i64_max s.
Definition parse_u64 (s : string) : option Z := from_str_int false 0 u64_max s.

(** The decimal value of a string of digits, with no bound (used to state
    what [from_str_int] accepts). *)
Fixpoint dec_value (s : string) (acc : Z) : option Z :=
  match s with
  | EmptyString => Some acc
  | String c r =>
      match to_digit c with
      | None => None
      | Some d => dec_value r (acc * 10 + d)
      end
  end.

(** The integer grammar of [from_str]: an optional [+] (or [-] for a
    signed type), then one or more decimal digits, the value being in
    [lo..hi]. *)
Definition int_grammar (is_signed_ty : bool) (lo hi : Z) (s : string) (v : Z) : Prop :=
  exists sign digits n,
    s = sign ++ digits
    /\ (sign = "" \/ sign = "+" \/ (is_signed_ty = true /\ sign = "-"))
    /\ digits <> ""
    /\ dec_value digits 0 = Some n
    /\ v = (if String.eqb sign "-" then - n else n)
    /\ lo <= v <= hi.

(** [true] when a string starts with [+] or [-]. *)
Definition starts_with_sign (s : string) : bool :=
  match s with EmptyString => false | String c _ => is_sign c end.

(** *** [std::time::Duration] and [SystemTime] *)

Definition nanos_per_sec : Z := 10 ^ 9.

(** [Duration::MAX]: [u64::MAX] seconds and 999_999_999 nanoseconds. *)
Definition duration_max : Z := u64_max * nanos_per_sec + (nanos_per_sec - 1).

Definition Duration_ZERO : Z := 0.

(** [Duration::from_secs] *)
Definition from_secs (secs : Z) : Z := secs * nanos_per_sec.

(** [Duration::saturating_sub]: [ZERO] when the difference is negative. *)
Definition saturating_sub (a b : Z) : Z := if a <? b then Duration_ZERO else a - b.

(** [Duration::saturating_add]: [Duration::MAX] when the sum overflows. *)
Definition saturating_add (a b : Z) : Z :=
  if duration_max <? a + b then duration_max else a + b.

(** [now.duration_since(earlier)]: an error when [earlier] is later. *)
Definition duration_since (now earlier : Z) : option Z :=
  if earlier <=? now then Some (now - earlier) else None.

(** ** [src/filters/time.rs] *)
Module time.

Inductive TimeComparison := Exactly | Lesser | Greater.

Inductive TimeUnit := Seconds | Minutes | Hours | Days.

Record TimeFilter := {
  comparison : TimeComparison;
  value : Z;
  unit : TimeUnit
}.

(** [TimeFilter::parse] *)
Definition parse (s : string) : Result TimeFilter :=
  match match chars_next s with
        | Some c =>
            if Ascii.eqb c "+"%char then Some (Greater, str_from1 s)
            else if Ascii.eqb c "-"%char then Some (Lesser, str_from1 s)
            else Some (Exactly, s)
        | None => None
        end with
  | None => Err "Empty time filter"
  | Some (comparison, rest) =>
      match match chars_last rest with
            | Some c =>
                if Ascii.eqb c "s"%char then Some Seconds
                else if Ascii.eqb c "m"%char then Some Minutes
                else if Ascii.eqb c "d"%char then Some Days
                else if Ascii.eqb c "h"%char then Some Hours
                else None
            | None => None
            end with
      | None => Err "Invalid time unit. Use 'm' for minutes or 'd' for days"
      | Some unit =>
          let value_str := str_upto (String.length rest - 1) rest in
          match parse_i64 value_str with
          | None => Err "Invalid number in time filter"
          | Some value =>
              Ok {| comparison := comparison; value := value; unit := unit |}
          end
      end
  end.

(** [TimeFilter::to_duration] *)
Definition to_duration (self : TimeFilter) : Z :=
  let a := unsigned_abs (value self) in
  match unit self with
  | Seconds => from_secs a
  | Minutes => from_secs (mul_u64 a 60)
  | Hours => from_secs (mul_u64 (mul_u64 a 60) 60)
  | Days => from_secs (mul_u64 (mul_u64 (mul_u64 a 24) 60) 60)
  end.

(** [TimeFilter::matches] *)
Definition matches (self : TimeFilter) (file_time now : Z) : bool :=
  let duration := to_duration self in
  let age := match duration_since now file_time with
             | Some d => d
             | None => Duration_ZERO
             end in
  match comparison self with
  | Exactly =>
      let tolerance := match unit self with
                       | Seconds => from_secs 2
                       | Minutes => from_secs 30
                       | Hours => from_secs (60 * 30)
                       | Days => from_secs (60 * 60 * 12)
                       end in
      let lower := saturating_sub duration tolerance in
      let upper := saturating_add duration tolerance in
      (lower <=? age) && (age <=? upper)
  | Lesser => age <? duration
  | Greater => duration <? age
  end.

(** The predicate as the spec words it: the age [max(0, now - file_time)]
    against [n] units, with the unit's tolerance band for [Exactly]. *)
Definition unit_secs (u : TimeUnit) : Z :=
  match u with Seconds => 1 | Minutes => 60 | Hours => 3600 | Days => 86400 end.

Definition tolerance_secs (u : TimeUnit) : Z :=
  match u with Seconds => 2 | Minutes => 30 | Hours => 1800 | Days => 43200 end.

Definition spec_matches (cmp : TimeComparison) (n : Z) (u : TimeUnit)
  (file_time now : Z) : bool :=
  let age := Z.max 0 (now - file_time) in
  let target := n * unit_secs u * nanos_per_sec in
  let tol := tolerance_secs u * nanos_per_sec in
  match cmp with
  | Exactly =>
      (Z.max 0 (target - tol) <=? age) && (age <=? Z.min duration_max (target + tol))
  | Lesser => age <? target
  | Greater => target <? age
  end.

(** The sign that selects a comparison and the character of a unit. *)
Definition sign_prefix (c : TimeComparison) : string :=
  match c with Greater => "+" | Lesser => "-" | Exactly => "" end.

Definition unit_char (u : TimeUnit) : ascii :=
  match u with
  | Seconds => "s"%char | Minutes => "m"%char | Hours => "h"%char | Days => "d"%char
  end.

(** The two decisions of [parse], as they stand in its body. *)
Definition sign_of (s : string) : option (TimeComparison * string) :=
  match chars_next s with
  | Some c =>
      if Ascii.eqb c "+"%char then Some (Greater, str_from1 s)
      else if Ascii.eqb c "-"%char then Some (Lesser, str_from1 s)
      else Some (Exactly, s)
  | None => None
  end.

Definition unit_of (c : ascii) : option TimeUnit :=
  if Ascii.eqb c "s"%char then Some Seconds
  else if Ascii.eqb c "m"%char then Some Minutes
  else if Ascii.eqb c "d"%char then Some Days
  else if Ascii.eqb c "h"%char then Some Hours
  else None.

End time.

(** *** Saturating arithmetic on [u64] *)

Definition u64_saturating_sub (a b : Z) : Z := if a <? b then 0 else a - b.

Definition u64_saturating_add (a b : Z) : Z :=
  if u64_max <? a + b then u64_max else a + b.

(** ** [src/filters/filesize.rs] *)
Module filesize.

Inductive SizeComparison := Exactly | Lesser | Greater.

Inductive SizeUnit := Bytes | Kilobytes | Megabytes | Gigabytes.

Record SizeFilter := {
  comparison : SizeComparison;
  value : Z;
  unit : SizeUnit
}.

(** [SizeFilter::parse] *)
Definition parse (s : string) : Result SizeFilter :=
  match match chars_next s with
        | Some c =>
            if Ascii.eqb c "+"%char then Some (Greater, str_from1 s)
            else if Ascii.eqb c "-"%char then Some (Lesser, str_from1 s)
            else Some (Exactly, s)
        | None => None
        end with
  | None => Err "Empty size filter"
  | Some (comparison, rest) =>
      match match chars_last rest with
            | Some c =>
                if Ascii.eqb c "c"%char then Some Bytes
                else if Ascii.eqb c "k"%char then Some Kilobytes
                else if Ascii.eqb c "M"%char then Some Megabytes
                else if Ascii.eqb c "G"%char then Some Gigabytes
                else None
            | None => None
            end with
      | None => Err "Invalid size unit. Use c (bytes), k (KB), M (MB), or G (GB)"
      | Some unit =>
          let value_str := str_upto (String.length rest - 1) rest in
          match parse_u64 value_str with
          | None => Err "Invalid number in size filter"
          | Some value =>
              Ok {| comparison := comparison; value := value; unit := unit |}
          end
      end
  end.

(** [SizeFilter::to_bytes] *)
Definition to_bytes (self : SizeFilter) : Z :=
  match unit self with
  | Bytes => value self
  | Kilobytes => mul_u64 (value self) 1024
  | Megabytes => mul_u64 (mul_u64 (value self) 1024) 1024
  | Gigabytes => mul_u64 (mul_u64 (mul_u64 (value self) 1024) 1024) 1024
  end.

(** [SizeFilter::matches] *)
Definition matches (self : SizeFilter) (file_size : Z) : bool :=
  let target_size := to_bytes self in
  match comparison self with
  | Exactly =>
      let tolerance := match unit self with
                       | Bytes => 0
                       | Kilobytes => 512
                       | Megabytes => 524288
                       | Gigabytes => 536870912
                       end in
      let lower := u64_saturating_sub target_size tolerance in
      let upper := u64_saturating_add target_size tolerance in
      (lower <=? file_size) && (file_size <=? upper)
  | Lesser => file_size <? target_size
  | Greater => target_size <? file_size
  end.

(** The unit factors and the predicate as the spec words them. *)
Definition unit_factor (u : SizeUnit) : Z :=
  match u with
  | Bytes => 1
  | Kilobytes => 1024
  | Megabytes => 1024 ^ 2
  | Gigabytes => 1024 ^ 3
  end.

Definition spec_tolerance (u : SizeUnit) : Z :=
  match u with
  | Bytes => 0
  | Kilobytes => 512
  | Megabytes => 524288
  | Gigabytes => 536870912
  end.

Definition spec_matches (self : SizeFilter) (file_size : Z) : bool :=
  let target := value self * unit_factor (unit self) in
  let t := spec_tolerance (unit self) in
  match comparison self with
  | Exactly =>
      (Z.max 0 (target - t) <=? file_size) && (file_size <=? Z.min u64_max (target + t))
  | Lesser => file_size <? target
  | Greater => target <? file_size
  end.

(** The sign that selects a comparison and the character of a unit. *)
Definition sign_prefix (c : SizeComparison) : string :=
  match c with Greater => "+" | Lesser => "-" | Exactly => "" end.

Definition unit_char (u : SizeUnit) : ascii :=
  match u with
  | Bytes => "c"%char | Kilobytes => "k"%char | Megabytes => "M"%char | Gigabytes => "G"%char
  end.

(** The two decisions of [parse], as they stand in its body. *)
Definition sign_of (s : string) : option (SizeComparison * string) :=
  match chars_next s with
  | Some c =>
      if Ascii.eqb c "+"%char then Some (Greater, str_from1 s)
      else if Ascii.eqb c "-"%char then Some (Lesser, str_from1 s)
      else Some (Exactly, s)
  | None => None
  end.

Definition unit_of (c : ascii) : option SizeUnit :=
  if Ascii.eqb c "c"%char then Some Bytes
  else if Ascii.eqb c "k"%char then Some Kilobytes
  else if Ascii.eqb c "M"%char then Some Megabytes
  else if Ascii.eqb c "G"%char then Some Gigabytes
  else None.

End filesize.

(** ** [src/filters/filetype.rs] *)
Module filetype.

Inductive TypeFilter := Any | File | Dir | Symlink.

(** [<TypeFilter as FromStr>::from_str] *)
Definition from_str (s : string) : Result TypeFilter :=
  if String.eqb s "f" || String.eqb s "file" then Ok File
  else if String.eqb s "d" || String.eqb s "dir" then Ok Dir
  else if String.eqb s "l" || String.eqb s "link" || String.eqb s "symlink" then Ok Symlink
  else if String.eqb s "any" then Ok Any
  else Err ("Invalid type filter '" ++ s ++ "'. Use f|d|l|any.").

End filetype.

(** ** [src/permissions.rs] (the [cfg(unix)] paths) *)
Module permissions.

Inductive PermissionMode := User | Group | Others | All.

Inductive PermissionType := Read | Write | Execute | SetID.

Record PermissionFilter := {
  mode : PermissionMode;
  perm_type : PermissionType;
  expected : bool
}.

(** The part of [std::fs::Metadata] the filter reads: [metadata.mode()]. *)
Record Metadata := { st_mode : Z }.

(** [PermissionFilter::parse]; [chars] is [s.chars().collect::<Vec<char>>()]
    and [chars[i]] is [nth i chars], in range after the length check. *)
Definition parse (s : string) : Result PermissionFilter :=
  let chars := list_ascii_of_string s in
  if negb (Nat.eqb (List.length chars) 3) then
    Err "Permission filter must be exactly 3 characters"
  else
    let c0 := nth 0 chars "000"%char in
    let c1 := nth 1 chars "000"%char in
    let c2 := nth 2 chars "000"%char in
    match (if Ascii.eqb c0 "u"%char then Some User
           else if Ascii.eqb c0 "g"%char then Some Group
           else if Ascii.eqb c0 "o"%char then Some Others
           else if Ascii.eqb c0 "a"%char then Some All
           else None) with
    | None => Err "Invalid permission mode. Use u|g|o|a"
    | Some mode =>
        match (if Ascii.eqb c1 "+"%char then Some true
               else if Ascii.eqb c1 "-"%char then Some false
               else None) with
        | None => Err "Invalid permission operator. Use + or -"
        | Some expected =>
            match (if Ascii.eqb c2 "r"%char then Some Read
                   else if Ascii.eqb c2 "w"%char then Some Write
                   else if Ascii.eqb c2 "x"%char then Some Execute
                   else if Ascii.eqb c2 "s"%char then Some SetID
                   else None) with
            | None => Err "Invalid permission type. Use r|w|x|s"
            | Some perm_type =>
                Ok {| mode := mode; perm_type := perm_type; expected := expected |}
            end
        end
    end.

(** Octal masks of the source: 0o444 = 292, 0o222 = 146, 0o111 = 73,
    0o700 = 448, 0o070 = 56, 0o007 = 7, 0o4000 = 2048, 0o2000 = 1024. *)
Definition check_permission (self : PermissionFilter) (mode : Z) (bits : Z) : bool :=
  match perm_type self with
  | Read => negb (Z.land (Z.land mode bits) 292 =? 0)
  | Write => negb (Z.land (Z.land mode bits) 146 =? 0)
  | Execute => negb (Z.land (Z.land mode bits) 73 =? 0)
  | SetID =>
      match permissions.mode self with
      | User => negb (Z.land mode 2048 =? 0)
      | Group => negb (Z.land mode 1024 =? 0)
      | _ => false
      end
  end.

(** [PermissionFilter::matches] *)
Definition matches (self : PermissionFilter) (metadata : Metadata) : bool :=
  let mode := st_mode metadata in
  let result := match permissions.mode self with
                | User => check_permission self mode 448
                | Group => check_permission self mode 56
                | Others => check_permission self mode 7
                | All =>
                    check_permission self mode 448 && check_permission self mode 56
                    && check_permission self mode 7
                end in
  Bool.eqb result (expected self).

(** Bit offset of [r], [w], [x] inside a 3-bit field. *)
Definition rwx_offset (p : PermissionType) : Z :=
  match p with Read => 2 | Write => 1 | Execute => 0 | SetID => 0 end.

(** The grammar [[ugoa][+-][rwxs]] over three characters. *)
Definition perm_grammar (s : string) : Prop :=
  exists c0 c1 c2, s = String c0 (String c1 (String c2 EmptyString))
    /\ In c0 ["u"; "g"; "o"; "a"]%char
    /\ In c1 ["+"; "-"]%char
    /\ In c2 ["r"; "w"; "x"; "s"]%char.

(** *** [OwnershipFilter] *)

(** The part of [std::fs::Metadata] the ownership filter reads:
    [metadata.uid()] and [metadata.gid()]. *)
Record OwnerIds := { st_uid : Z; st_gid : Z }.

Record OwnershipFilter := { uid : option Z; gid : option Z }.

(** [OwnershipFilter::new] *)
Definition OwnershipFilter_new (uid gid : option Z) : OwnershipFilter :=
  {| uid := uid; gid := gid |}.

(** [OwnershipFilter::matches] *)
Definition OwnershipFilter_matches (self : OwnershipFilter) (metadata : OwnerIds) : bool :=
  let uid_match := match uid self with None => true | Some u => st_uid metadata =? u end in
  let gid_match := match gid self with None => true | Some g => st_gid metadata =? g end in
  uid_match && gid_match.

(** *** Special mode bits *)

Inductive SpecialMode := SetUID | SetGID | Sticky.

(** [has_special_mode]; 0o4000 = 2048, 0o2000 = 1024, 0o1000 = 512. *)
Definition has_special_mode (metadata : Metadata) (mode : SpecialMode) : bool :=
  let mode_bits := st_mode metadata in
  match mode with
  | SetUID => negb (Z.land mode_bits 2048 =? 0)
  | SetGID => negb (Z.land mode_bits 1024 =? 0)
  | Sticky => negb (Z.land mode_bits 512 =? 0)
  end.

(** *** [get_permission_string] *)

(** [result.push(c)] *)
Definition push (result : string) (c : ascii) : string := result ++ String c "".

(** [mode & m != 0] *)
Definition mode_has (mode m : Z) : bool := negb (Z.land mode m =? 0).

(** The file type character: [mode & 0o170000] (61440) against 0o140000,
    0o120000, 0o100000, 0o060000, 0o040000, 0o020000 and 0o010000. *)
Definition file_type_char (mode : Z) : ascii :=
  let t := Z.land mode 61440 in
  if t =? 49152 then "s"%char
  else if t =? 40960 then "l"%char
  else if t =? 32768 then "-"%char
  else if t =? 24576 then "b"%char
  else if t =? 16384 then "d"%char
  else if t =? 8192 then "c"%char
  else if t =? 4096 then "p"%char
  else "?"%char.

(** [get_permission_string] (the [cfg(unix)] path). Masks: 0o400 = 256,
    0o200 = 128, 0o100 = 64, 0o040 = 32, 0o020 = 16, 0o010 = 8, 0o004 = 4,
    0o002 = 2, 0o001 = 1. *)
Definition get_permission_string (metadata : Metadata) : string :=
  let mode := st_mode metadata in
  let result := "" in
  let result := push result (file_type_char mode) in
  (* User permissions *)
  let result := push result (if mode_has mode 256 then "r"%char else "-"%char) in
  let result := push result (if mode_has mode 128 then "w"%char else "-"%char) in
  let result := push result (if mode_has mode 2048 then
                               if mode_has mode 64 then "s"%char else "S"%char
                             else if mode_has mode 64 then "x"%char else "-"%char) in
  (* Group permissions *)
  let result := push result (if mode_has mode 32 then "r"%char else "-"%char) in
  let result := push result (if mode_has mode 16 then "w"%char else "-"%char) in
  let result := push result (if mode_has mode 1024 then
                               if mode_has mode 8 then "s"%char else "S"%char
                             else if mode_has mode 8 then "x"%char else "-"%char) in
  (* Others permissions *)
  let result := push result (if mode_has mode 4 then "r"%char else "-"%char) in
  let result := push result (if mode_has mode 2 then "w"%char else "-"%char) in
  let result := push result (if mode_has mode 512 then
                               if mode_has mode 1 then "t"%char else "T"%char
                             else if mode_has mode 1 then "x"%char else "-"%char) in
  result.

(** Where [get_permission_string] shows a permission: the field of a
    subject (user 1..3, group 4..6, others 7..9) and the letters that mean
    the bit is set. *)
Definition perm_char_index (md : PermissionMode) (p : PermissionType) : nat :=
  (match md with User | All => 0 | Group => 3 | Others => 6 end
   + match p with Read => 1 | Write => 2 | Execute | SetID => 3 end)%nat.

Definition set_letters (p : PermissionType) : list ascii :=
  match p with
  | Read => ["r"%char]
  | Write => ["w"%char]
  | Execute | SetID => ["x"%char; "s"%char; "t"%char]
  end.

(** The characters [parse] reads for each mode, operator and type. *)
Definition mode_char (m : PermissionMode) : ascii :=
  match m with User => "u" | Group => "g" | Others => "o" | All => "a" end%char.

Definition op_char (e : bool) : ascii := if e then "+"%char else "-"%char.

Definition type_char (p : PermissionType) : ascii :=
  match p with Read => "r" | Write => "w" | Execute => "x" | SetID => "s" end%char.

Definition render (f : PermissionFilter) : string :=
  String (mode_char (mode f)) (String (op_char (expected f))
    (String (type_char (perm_type f)) EmptyString)).

End permissions.

(** *** Filter strings

    The decimal digits of a non-negative number (most significant first),
    and the string a size or time filter is written as: its sign, its value
    in decimal, its unit letter. *)
Definition digit_char (d : Z) : ascii := ascii_of_nat (48 + Z.to_nat d).

Fixpoint show_dec_fuel (fuel : nat) (n : Z) : string :=
  match fuel with
  | O => ""
  | S f =>
      if n <? 10 then String (digit_char n) ""
      else show_dec_fuel f (n / 10) ++ String (digit_char (n mod 10)) ""
  end.

(** Twenty digits cover the [u64] range. *)
Definition show_dec (n : Z) : string := show_dec_fuel 20 n.

Definition time_render (f : time.TimeFilter) : string :=
  time.sign_prefix (time.comparison f) ++ show_dec (time.value f)
  ++ String (time.unit_char (time.unit f)) "".

Definition size_render (f : filesize.SizeFilter) : string :=
  filesize.sign_prefix (filesize.comparison f) ++ show_dec (filesize.value f)
  ++ String (filesize.unit_char (filesize.unit f)) "".

(** ** The parallel traversal engine *)

Module engine.
Local Open Scope nat_scope.

(** Modelled from the spec: the parallel traversal engine of §4.4-4.7
    (work channel, dir channel, active-scanners counter, scanner workers and
    distributor), which is not in src/ (src/main.rs is the index-based
    finder). Each thread's step is one action on shared state; the sleeps
    between the distributor's polls take no step, and result emission is
    left out, since it touches neither channel nor the counter.

    The file system: directory [p] is the [p]-th element of [fs], [None]
    when it cannot be opened. Its entries are those that pass the
    system-path filter and whose lstat succeeds: a file, a symbolic link
    ([Some d] when it canonicalises to directory [d], [None] when
    canonicalisation fails or the target is not a directory), or a
    subdirectory. A work unit is a directory and its depth. *)
Inductive Entry := EFile | ELink (target : option nat) | ESub (child : nat).

Definition WorkUnit : Type := (nat * nat)%type.

Inductive SymlinkPolicy := Never | Command | Always.

Record Config := {
  fs : list (option (list Entry));
  nscanners : nat;
  capacity : nat;
  policy : SymlinkPolicy;
  max_depth : option nat
}.

(** A scanner is idle (blocked on the work channel), holds a unit it has
    received but not yet counted, works through the entries of a unit
    after the increment, or has exited. *)
Inductive Phase :=
| Idle
| Got (u : WorkUnit)
| Working (u : WorkUnit) (es : list Entry)
| Exited.

Record Scanner := { phase : Phase; visited : list nat }.

(** The distributor polls with its empty-read counter, holds a unit it
    forwards to the work channel, or has exited (dropping the work-channel
    sender, which closes the channel). *)
Inductive Distributor := Polling (empty_reads : nat) | Forwarding (u : WorkUnit) | DExited.

Record Engine := {
  work : list WorkUnit;
  dir : list WorkUnit;
  active : nat;
  scanners : list Scanner;
  dist : Distributor
}.

Inductive Thread := TScanner (i : nat) | TDist.

Fixpoint upd {A} (l : list A) (i : nat) (x : A) : list A :=
  match l, i with
  | [], _ => []
  | _ :: r, O => x :: r
  | y :: r, S j => y :: upd r j x
  end.

Definition read_dir (cfg : Config) (p : nat) : option (list Entry) :=
  match nth_error (fs cfg) p with Some o => o | None => None end.

Definition too_deep (cfg : Config) (d : nat) : bool :=
  match max_depth cfg with Some m => Nat.ltb m d | None => false end.

(** Only [-L] follows a symlink found while scanning: under [-H] the
    followed link is the seed itself, never a directory entry. *)
Definition follows (cfg : Config) : bool :=
  match policy cfg with Always => true | _ => false end.

Definition mem (x : nat) (l : list nat) : bool := existsb (Nat.eqb x) l.

Definition set_scanner (st : Engine) (i : nat) (s : Scanner) (w dr : list WorkUnit)
  (a : nat) : Engine :=
  {| work := w; dir := dr; active := a; scanners := upd (scanners st) i s;
     dist := dist st |}.

(** One step of scanner [i] (§4.5 and §4.5.2). A receive takes the head of
    the work channel; it reports the channel closed only when the channel is
    empty and the distributor, its last sender, has exited. The increment
    comes first, then the depth check and the opening of the directory
    (either failure leaves no entries); each entry is one step; the
    decrement comes after the last entry. *)
Definition scanner_step (cfg : Config) (st : Engine) (i : nat) (s : Scanner) : option Engine :=
  let vis := visited s in
  match phase s with
  | Idle =>
      match work st with
      | u :: rest =>
          Some (set_scanner st i {| phase := Got u; visited := vis |} rest (dir st) (active st))
      | [] =>
          match dist st with
          | DExited =>
              Some (set_scanner st i {| phase := Exited; visited := vis |}
                      (work st) (dir st) (active st))
          | _ => None
          end
      end
  | Got (p, d) =>
      let es := if too_deep cfg d then []
                else match read_dir cfg p with Some es => es | None => [] end in
      Some (set_scanner st i {| phase := Working (p, d) es; visited := vis |}
              (work st) (dir st) (S (active st)))
  | Working _ [] =>
      Some (set_scanner st i {| phase := Idle; visited := vis |}
              (work st) (dir st) (Nat.pred (active st)))
  | Working (p, d) (e :: es) =>
      let next := {| phase := Working (p, d) es; visited := vis |} in
      match e with
      | ESub c => Some (set_scanner st i next (work st) (app (dir st) [(c, S d)]) (active st))
      | ELink (Some t) =>
          if follows cfg then
            if mem t vis then Some (set_scanner st i next (work st) (dir st) (active st))
            else Some (set_scanner st i {| phase := Working (p, d) es; visited := t :: vis |}
                         (work st) (app (dir st) [(t, d)]) (active st))
          else Some (set_scanner st i next (work st) (dir st) (active st))
      | _ => Some (set_scanner st i next (work st) (dir st) (active st))
      end
  | Exited => None
  end.

Definition set_dist (st : Engine) (w dr : list WorkUnit) (ds : Distributor) : Engine :=
  {| work := w; dir := dr; active := active st; scanners := scanners st; dist := ds |}.

(** One iteration of the distributor (§4.4): a non-blocking receive on the
    dir channel; on success the unit is forwarded (blocking while the work
    channel is full) and the empty-read counter reset; on empty the counter
    is incremented and the loop breaks when it is at least 3, the active
    counter is 0 and the dir channel is still empty. The disconnect branch
    is not reachable here: the scanners keep their dir-channel senders
    until they exit, which they do only after the distributor has exited. *)
Definition dist_step (cfg : Config) (st : Engine) : option Engine :=
  match dist st with
  | Polling k =>
      match dir st with
      | u :: rest => Some (set_dist st (work st) rest (Forwarding u))
      | [] =>
          if Nat.leb 3 (S k) && Nat.eqb (active st) 0 then Some (set_dist st (work st) [] DExited)
          else Some (set_dist st (work st) [] (Polling (S k)))
      end
  | Forwarding u =>
      if Nat.ltb (List.length (work st)) (capacity cfg)
      then Some (set_dist st (app (work st) [u]) (dir st) (Polling 0))
      else None
  | DExited => None
  end.

Definition step (cfg : Config) (t : Thread) (st : Engine) : option Engine :=
  match t with
  | TScanner i =>
      match nth_error (scanners st) i with
      | Some s => scanner_step cfg st i s
      | None => None
      end
  | TDist => dist_step cfg st
  end.

(** The engine once the driver has pushed the seed [(root, 0)] (§4.7):
    scanners idle with empty visited sets, the counter at 0. The driver
    spawns the distributor before it pushes the seed, so the distributor
    has either done [j] empty reads ([Some j]) or already exited ([None]). *)
Definition init (cfg : Config) (root : nat) (k : option nat) : Engine :=
  {| work := [(root, 0%nat)]; dir := []; active := 0;
     scanners := repeat {| phase := Idle; visited := [] |} (nscanners cfg);
     dist := match k with Some j => Polling j | None => DExited end |}.

(** Stopped: the distributor and every scanner have exited. *)
Definition is_exited (s : Scanner) : bool := match phase s with Exited => true | _ => false end.

Definition is_stopped (st : Engine) : bool :=
  match dist st with DExited => forallb is_exited (scanners st) | _ => false end.

(** Steps of any threads, and steps in which the distributor exits only
    while the work channel is empty and no scanner holds a unit it has not
    counted yet (what the debouncing window is for). *)
Definition quiet (st : Engine) : bool :=
  match work st with
  | [] => forallb (fun s => match phase s with Got _ => false | _ => true end) (scanners st)
  | _ => false
  end.

Inductive reach (cfg : Config) (st : Engine) : Engine -> Prop :=
| reach_refl : reach cfg st st
| reach_step t st1 st2 : reach cfg st st1 -> step cfg t st1 = Some st2 -> reach cfg st st2.

Inductive reach_quiet (cfg : Config) (st : Engine) : Engine -> Prop :=
| rq_refl : reach_quiet cfg st st
| rq_step t st1 st2 :
    reach_quiet cfg st st1 -> step cfg t st1 = Some st2 ->
    (dist st2 = DExited -> dist st1 = DExited \/ quiet st1 = true) ->
    reach_quiet cfg st st2.

(** An execution under a scheduler: at each instant the scheduled thread
    takes its step, a blocked thread leaving the state as it is. Weak
    fairness: from every instant on, every thread is eventually scheduled
    or blocked. *)
Definition execution (cfg : Config) (e : nat -> Engine) (sched : nat -> Thread) : Prop :=
  forall n, e (S n) = match step cfg (sched n) (e n) with Some st => st | None => e n end.

Definition valid_thread (cfg : Config) (t : Thread) : Prop :=
  match t with TScanner i => (i < nscanners cfg)%nat | TDist => True end.

Definition fair (cfg : Config) (e : nat -> Engine) (sched : nat -> Thread) : Prop :=
  forall t n, valid_thread cfg t ->
    exists m, (n <= m)%nat /\ (sched m = t \/ step cfg t (e m) = None).

(** A finite tree: each subdirectory of [p] is numbered below [p], and
    every symlink target is a directory of [fs]. *)
Definition entry_ok (cfg : Config) (p : nat) (e : Entry) : bool :=
  match e with
  | ESub c => Nat.ltb c p
  | ELink (Some t) => Nat.ltb t (List.length (fs cfg))
  | _ => true
  end.

Fixpoint fs_ok_from (cfg : Config) (p : nat) (l : list (option (list Entry))) : bool :=
  match l with
  | [] => true
  | o :: r =>
      match o with Some es => forallb (entry_ok cfg p) es | None => true end
      && fs_ok_from cfg (S p) r
  end.

Definition wf_fs (cfg : Config) : bool := fs_ok_from cfg 0 (fs cfg).

(** Running a schedule given as a list, for concrete executions. *)
Fixpoint run (cfg : Config) (ts : list Thread) (st : Engine) : option Engine :=
  match ts with
  | [] => Some st
  | t :: r => match step cfg t st with Some st' => run cfg r st' | None => None end
  end.

(** Termination measure. [weight p] bounds the steps that a unit for [p]
    can still cause (not counting units that new symlink follows create):
    3 for its trip from the dir channel into a scanner, then 3 for the
    increment and decrement and each entry with the weight of its
    subdirectory. *)
Definition entries (cfg : Config) (p : nat) : list Entry :=
  match read_dir cfg p with Some es => es | None => [] end.

Fixpoint weight_fuel (cfg : Config) (f p : nat) : nat :=
  match f with
  | O => 3
  | S f' =>
      3 + list_sum (map (fun e => 1 + match e with ESub c => weight_fuel cfg f' c + 3 | _ => 0 end)
                      (entries cfg p))
  end.

Definition weight (cfg : Config) (p : nat) : nat := weight_fuel cfg (S p) p.

Definition entry_w (cfg : Config) (e : Entry) : nat :=
  1 + match e with ESub c => weight cfg c + 3 | _ => 0 end.

Definition scanner_pot (cfg : Config) (s : Scanner) : nat :=
  match phase s with
  | Idle => 1
  | Got (p, _) => weight cfg p
  | Working _ es => 2 + list_sum (map (entry_w cfg) es)
  | Exited => 0
  end.

Definition unvisited (cfg : Config) (v : list nat) : nat :=
  List.length (filter (fun x => negb (mem x v)) (seq 0 (List.length (fs cfg)))).

Definition mF (cfg : Config) (st : Engine) : nat :=
  list_sum (map (fun s => unvisited cfg (visited s)) (scanners st)).

Definition pw (cfg : Config) (l : list WorkUnit) : nat :=
  list_sum (map (fun u => weight cfg (fst u) + 1) l).

Definition pd (cfg : Config) (l : list WorkUnit) : nat :=
  list_sum (map (fun u => weight cfg (fst u) + 3) l).

Definition pdist (cfg : Config) (ds : Distributor) : nat :=
  match ds with Forwarding u => weight cfg (fst u) + 2 | _ => 0 end.

Definition mP (cfg : Config) (st : Engine) : nat :=
  pw cfg (work st) + pd cfg (dir st) + list_sum (map (scanner_pot cfg) (scanners st))
  + pdist cfg (dist st).

Definition mD (st : Engine) : nat :=
  match dist st with Polling k => 4 - Nat.min k 3 | Forwarding _ => 1 | DExited => 0 end.

Definition decreases (cfg : Config) (st' st : Engine) : Prop :=
  (mF cfg st' < mF cfg st \/ (mF cfg st' = mF cfg st /\
   (mP cfg st' < mP cfg st \/ (mP cfg st' = mP cfg st /\ mD st' < mD st))))%nat.

Definition count_working (l : list Scanner) : nat :=
  list_sum (map (fun s => match phase s with Working _ _ => 1 | _ => 0 end) l).

Definition busy (s : Scanner) : bool :=
  match phase s with Got _ | Working _ _ => true | _ => false end.

Definition link_ok (cfg : Config) (e : Entry) : bool :=
  match e with ELink (Some t) => Nat.ltb t (List.length (fs cfg)) | _ => true end.

Definition scanner_links_ok (cfg : Config) (s : Scanner) : bool :=
  match phase s with Working _ es => forallb (link_ok cfg) es | _ => true end.

(** The invariant of reachable states: one record per scanner, the counter
    equal to the number of scanners past their increment, no scanner exited
    before the work channel is closed and drained, and the entries still to
    be scanned from [fs]. *)
Definition Inv (cfg : Config) (st : Engine) : Prop :=
  List.length (scanners st) = nscanners cfg /\
  active st = count_working (scanners st) /\
  (existsb is_exited (scanners st) = true -> dist st = DExited /\ work st = []) /\
  forallb (scanner_links_ok cfg) (scanners st) = true.

(** States equal up to the empty-read counter of a distributor that has
    already polled three times. *)
Definition dist_sim (a b : Distributor) : Prop :=
  a = b \/ exists k k', a = Polling k /\ b = Polling k' /\ (3 <= k)%nat /\ (3 <= k')%nat.

Definition sim (st st' : Engine) : Prop :=
  work st = work st' /\ dir st = dir st' /\ active st = active st' /\
  scanners st = scanners st' /\ dist_sim (dist st) (dist st').

(** A tree with one subdirectory: root 1 holds directory 0. One scanner. *)
Definition tree_cfg : Config :=
  {| fs := [Some []; Some [ESub 0]]; nscanners := 1; capacity := 8;
     policy := Never; max_depth := None |}.

(** Round-robin scheduling of one scanner and the distributor. *)
Definition rr_sched (n : nat) : Thread := if Nat.even n then TScanner 0 else TDist.

Fixpoint rr_exec (cfg : Config) (st : Engine) (n : nat) : Engine :=
  match n with
  | O => st
  | S m => let x := rr_exec cfg st m in
           match step cfg (rr_sched m) x with Some y => y | None => x end
  end.

End engine.

(** * Properties *)

(** ** Sanity checks on concrete inputs *)
Module examples.

Example parse_i64_neg : parse_i64 "-5" = Some (-5). Proof. reflexivity. Qed.
Example parse_i64_plus : parse_i64 "+12" = Some 12. Proof. reflexivity. Qed.
Example parse_u64_neg : parse_u64 "-5" = None. Proof. reflexivity. Qed.
Example parse_u64_max : parse_u64 "18446744073709551615" = Some u64_max.
Proof. reflexivity. Qed.
Example parse_u64_over : parse_u64 "18446744073709551616" = None.
Proof. reflexivity. Qed.
Example parse_i64_min : parse_i64 "-9223372036854775808" = Some i64_min.
Proof. reflexivity. Qed.
Example parse_i64_over : parse_i64 "9223372036854775808" = None.
Proof. reflexivity. Qed.

Example time_parse_plus1h :
  time.parse "+1h" = Ok {| time.comparison := time.Greater; time.value := 1; time.unit := time.Hours |}.
Proof. reflexivity. Qed.
Example time_parse_empty : is_ok (time.parse "") = false. Proof. reflexivity. Qed.
Example time_parse_nounit : is_ok (time.parse "5") = false. Proof. reflexivity. Qed.
Example time_parse_unit_only : is_ok (time.parse "m") = false. Proof. reflexivity. Qed.
Example time_matches_exact :
  time.matches {| time.comparison := time.Exactly; time.value := 1; time.unit := time.Minutes |}
    0 (89 * nanos_per_sec) = true.
Proof. reflexivity. Qed.

Example size_parse_1M :
  filesize.parse "1M" = Ok {| filesize.comparison := filesize.Exactly; filesize.value := 1;
                             filesize.unit := filesize.Megabytes |}.
Proof. reflexivity. Qed.
Example size_parse_1K : is_ok (filesize.parse "1K") = false. Proof. reflexivity. Qed.
Example size_parse_empty : is_ok (filesize.parse "") = false. Proof. reflexivity. Qed.

Example perm_parse_len : is_ok (permissions.parse "invalid") = false. Proof. reflexivity. Qed.
Example perm_ux :
  permissions.matches {| permissions.mode := permissions.User; permissions.perm_type := permissions.Execute;
                         permissions.expected := true |} {| permissions.st_mode := 493 |} = true.
Proof. reflexivity. Qed.

Example type_F : is_ok (filetype.from_str "F") = false. Proof. reflexivity. Qed.

Example perm_string_755 :
  permissions.get_permission_string {| permissions.st_mode := 33261 |} = "-rwxr-xr-x".
Proof. reflexivity. Qed.
Example perm_string_setuid :
  permissions.get_permission_string {| permissions.st_mode := 35309 |} = "-rwsr-xr-x".
Proof. reflexivity. Qed.
Example perm_string_sticky_dir :
  permissions.get_permission_string {| permissions.st_mode := 17407 |} = "drwxrwxrwt".
Proof. reflexivity. Qed.
Example perm_string_setgid_noexec :
  permissions.get_permission_string {| permissions.st_mode := 34212 |} = "-rw-r-Sr--".
Proof. reflexivity. Qed.

End examples.

(** ** Bit-level facts about the permission masks *)
Module bits.

Lemma land_pow2 (m k : Z) :
  0 <= k -> Z.land m (2 ^ k) = if Z.testbit m k then 2 ^ k else 0.
Proof.
  intros Hk. apply Z.bits_inj'. intros n Hn.
  rewrite Z.land_spec, Z.pow2_bits_eqb by lia.
  destruct (Z.eqb_spec k n) as [<-|Hne].
  - destruct (Z.testbit m k); simpl.
    + now rewrite Z.pow2_bits_true.
    + now rewrite Z.bits_0.
  - rewrite andb_false_r. destruct (Z.testbit m k).
    + rewrite Z.pow2_bits_false; lia.
    + now rewrite Z.bits_0.
Qed.

(** [(mode & bits & mask) != 0] tests one bit when [bits & mask] is a
    power of two. *)
Lemma masked_nonzero (m bits mask k : Z) :
  0 <= k -> Z.land bits mask = 2 ^ k ->
  negb (Z.land (Z.land m bits) mask =? 0) = Z.testbit m k.
Proof.
  intros Hk Hbm. rewrite <- Z.land_assoc, Hbm, land_pow2 by exact Hk.
  destruct (Z.testbit m k); [|reflexivity].
  destruct (Z.eqb_spec (2 ^ k) 0) as [E|E]; [|reflexivity].
  pose proof (Z.pow_pos_nonneg 2 k ltac:(lia) Hk). lia.
Qed.

End bits.

Module permissions_proofs.
Import permissions.

Lemma check_field (p : PermissionType) (md : PermissionMode) (e : bool) (m : Z) (f : Z) :
  p <> SetID -> f = 0 \/ f = 3 \/ f = 6 ->
  check_permission {| mode := md; perm_type := p; expected := e |} m (7 * 2 ^ f)
  = Z.testbit m (f + rwx_offset p).
Proof.
  intros Hp Hf. unfold check_permission; simpl.
  destruct p; try (exfalso; apply Hp; reflexivity);
    destruct Hf as [ -> | [ -> | -> ]];
    apply bits.masked_nonzero; cbn [rwx_offset]; (lia || reflexivity).
Qed.

Ltac ascii_cases :=
  repeat match goal with
         | |- context [Ascii.eqb ?c ?d] => destruct (Ascii.eqb_spec c d); subst
         | H : context [Ascii.eqb ?c ?d] |- _ => destruct (Ascii.eqb_spec c d); subst
         end.

(** Claim C5: with subject [a] and polarity [+], a bit among r, w, x
    matches iff it is set in the user, the group AND the others field; the
    subjects [u], [g] and [o] read only their own field (0o700, 0o070,
    0o007). *)
Theorem perm_all_present_conjunction (p : PermissionType) (md : Metadata) :
  p <> SetID ->
  let m := st_mode md in
  let o := rwx_offset p in
  matches {| mode := All; perm_type := p; expected := true |} md
    = Z.testbit m (6 + o) && Z.testbit m (3 + o) && Z.testbit m o
  /\ (forall e, matches {| mode := User; perm_type := p; expected := e |} md
                = Bool.eqb (Z.testbit m (6 + o)) e)
  /\ (forall e, matches {| mode := Group; perm_type := p; expected := e |} md
                = Bool.eqb (Z.testbit m (3 + o)) e)
  /\ (forall e, matches {| mode := Others; perm_type := p; expected := e |} md
                = Bool.eqb (Z.testbit m o) e).
Proof.
  intros Hp m o. unfold matches; cbn [mode perm_type expected].
  change 7 with (7 * 2 ^ 0). change 448 with (7 * 2 ^ 6). change 56 with (7 * 2 ^ 3).
  repeat split; try intros e; rewrite ?check_field by (auto; lia);
    rewrite ?Z.add_0_l; [destruct (_ && _ && _); reflexivity| | |]; reflexivity.
Qed.

Lemma perm_all_present_conjunction_witness :
  Write <> SetID /\
  matches {| mode := All; perm_type := Write; expected := true |} {| st_mode := 438 |} = true.
Proof.
  split; [discriminate|].
  destruct (perm_all_present_conjunction Write {| st_mode := 438 |} ltac:(discriminate))
    as [H _].
  rewrite H. reflexivity.
Defined.

(** Claim C10: with subject [a] and polarity [-], a bit among r, w, x
    matches iff at least one of the user, group and others fields lacks it:
    the polarity negates the three-field conjunction. *)
Theorem perm_all_absent_negated_conjunction (p : PermissionType) (md : Metadata) :
  p <> SetID ->
  let m := st_mode md in
  let o := rwx_offset p in
  matches {| mode := All; perm_type := p; expected := false |} md = true
  <-> (Z.testbit m (6 + o) = false \/ Z.testbit m (3 + o) = false \/ Z.testbit m o = false).
Proof.
  intros Hp m o. unfold matches; cbn [mode perm_type expected].
  change 7 with (7 * 2 ^ 0). change 448 with (7 * 2 ^ 6). change 56 with (7 * 2 ^ 3).
  rewrite !check_field by (auto; lia). rewrite Z.add_0_l. fold m o.
  destruct (Z.testbit m (6 + o)), (Z.testbit m (3 + o)), (Z.testbit m o);
    simpl; intuition congruence.
Qed.

Lemma perm_all_absent_negated_conjunction_witness :
  Read <> SetID /\
  matches {| mode := All; perm_type := Read; expected := false |} {| st_mode := 416 |} = true.
Proof.
  split; [discriminate|].
  apply (perm_all_absent_negated_conjunction Read {| st_mode := 416 |} ltac:(discriminate)).
  right; right. reflexivity.
Defined.

(** Claim C4 (counterexample): [o+s] and [a+s] are accepted by the parser. *)
Lemma perm_parse_accepts_setid_for_o_a :
  parse "o+s" = Ok {| mode := Others; perm_type := SetID; expected := true |}
  /\ parse "a+s" = Ok {| mode := All; perm_type := SetID; expected := true |}.
Proof. split; reflexivity. Qed.

(** Claim C4 (as amended): the parser accepts exactly the three-character
    strings of [[ugoa][+-][rwxs]], [s] with any subject included; the setid
    bit is never seen as set for the subjects [o] and [a], so such a filter
    matches every file with [-] and none with [+]. *)
Theorem perm_parse_grammar (s : string) :
  (is_ok (parse s) = true <-> perm_grammar s)
  /\ (forall e md, matches {| mode := Others; perm_type := SetID; expected := e |} md = negb e)
  /\ (forall e md, matches {| mode := All; perm_type := SetID; expected := e |} md = negb e).
Proof.
  split; [|split; intros [] md; reflexivity].
  unfold perm_grammar.
  destruct s as [|c0 [|c1 [|c2 [|c3 r]]]];
    try (split; [discriminate|intros (a & b & c & E & _); discriminate]).
  split.
  - intros H. exists c0, c1, c2. split; [reflexivity|].
    unfold parse in H; cbn -[Ascii.eqb] in H.
    ascii_cases; try discriminate; simpl; tauto.
  - intros (a & b & c & E & Ha & Hb & Hc). injection E as <- <- <-.
    simpl in Ha, Hb, Hc.
    repeat destruct Ha as [<-|Ha]; try contradiction;
    repeat destruct Hb as [<-|Hb]; try contradiction;
    repeat destruct Hc as [<-|Hc]; try contradiction; reflexivity.
Qed.

End permissions_proofs.

Module filetype_proofs.
Import filetype.

(** Claim C8: [from_str] gives [File] exactly on [f] and [file], [Dir]
    exactly on [d] and [dir], [Symlink] exactly on [l], [link] and
    [symlink], [Any] exactly on [any], and an error on every other string
    (matching is case-sensitive). *)
Theorem type_from_str_exact (s : string) :
  (from_str s = Ok File <-> s = "f" \/ s = "file")
  /\ (from_str s = Ok Dir <-> s = "d" \/ s = "dir")
  /\ (from_str s = Ok Symlink <-> s = "l" \/ s = "link" \/ s = "symlink")
  /\ (from_str s = Ok Any <-> s = "any")
  /\ (is_ok (from_str s) = false
      <-> ~ In s ["f"; "file"; "d"; "dir"; "l"; "link"; "symlink"; "any"]).
Proof.
  unfold from_str.
  repeat match goal with
         | |- context [String.eqb ?x ?t] =>
             is_var x; destruct (String.eqb_spec x t) as [E|?]; [subst x|]
         end; cbn;
  intuition congruence.
Qed.

Example type_from_str_upper_F : is_ok (from_str "F") = false.
Proof. reflexivity. Qed.

End filetype_proofs.

Module filesize_proofs.
Import filesize.

Lemma to_bytes_exact (f : SizeFilter) :
  0 <= value f * unit_factor (unit f) <= u64_max ->
  to_bytes f = value f * unit_factor (unit f).
Proof.
  destruct f as [c v u]; cbn [value unit]. unfold u64_max.
  intros H. assert (0 <= v) by (destruct u; cbn in H; nia).
  unfold to_bytes, mul_u64; cbn [value unit].
  destruct u; cbn [unit_factor] in *;
    change (1024 ^ 2) with 1048576 in *; change (1024 ^ 3) with 1073741824 in *;
    change (2 ^ 64 - 1) with 18446744073709551615 in *;
    change (2 ^ 64) with 18446744073709551616.
  - lia.
  - apply Z.mod_small; lia.
  - rewrite (Z.mod_small (v * 1024)) by nia. rewrite Z.mod_small; nia.
  - rewrite (Z.mod_small (v * 1024)) by nia.
    rewrite (Z.mod_small (v * 1024 * 1024)) by nia. rewrite Z.mod_small; nia.
Qed.

Lemma to_bytes_wrapping (f : SizeFilter) :
  0 <= value f <= u64_max ->
  to_bytes f = (value f * unit_factor (unit f)) mod 2 ^ 64.
Proof.
  destruct f as [c v u]; cbn [value unit]. intros H.
  unfold to_bytes, mul_u64; cbn [value unit].
  destruct u; cbn [unit_factor].
  - rewrite Z.mul_1_r, Z.mod_small; [reflexivity|unfold u64_max in H; lia].
  - reflexivity.
  - rewrite Z.mul_mod_idemp_l by discriminate. rewrite <- Z.mul_assoc. reflexivity.
  - rewrite Z.mul_mod_idemp_l by discriminate. rewrite <- Z.mul_assoc.
    rewrite Z.mul_mod_idemp_l by discriminate. rewrite <- Z.mul_assoc. reflexivity.
Qed.

(** Claim C7: [to_bytes] multiplies the value by 1, 1024, 1024^2 or
    1024^3 as a [u64] product, which is the exact product whenever that
    fits in a [u64]; the filters parsed from [1M] and [1k] resolve to
    1048576 and 1024 bytes. *)
Theorem size_to_bytes_units (f : SizeFilter) :
  0 <= value f <= u64_max ->
  to_bytes f = (value f * unit_factor (unit f)) mod 2 ^ 64
  /\ (value f * unit_factor (unit f) <= u64_max ->
      to_bytes f = value f * unit_factor (unit f))
  /\ (exists g, parse "1M" = Ok g /\ to_bytes g = 1048576)
  /\ (exists h, parse "1k" = Ok h /\ to_bytes h = 1024).
Proof.
  intros H. split; [now apply to_bytes_wrapping|]. split.
  - intros Hf. apply to_bytes_exact. split; [|exact Hf].
    apply Z.mul_nonneg_nonneg; [lia|destruct (unit f); cbn; lia].
  - split; eexists; split; reflexivity.
Qed.

Lemma size_to_bytes_units_witness :
  let f := {| comparison := Exactly; value := 3; unit := Gigabytes |} in
  (0 <= value f <= u64_max) /\ to_bytes f = 3221225472.
Proof.
  intros f. assert (H : 0 <= value f <= u64_max)
    by (split; apply Z.leb_le; reflexivity).
  split; [exact H|].
  destruct (size_to_bytes_units f H) as [E _]. rewrite E. reflexivity.
Defined.

(** Without overflow in [to_bytes], [matches] is the spec's predicate. *)
Lemma size_matches_no_overflow (f : SizeFilter) (file_size : Z) :
  0 <= value f * unit_factor (unit f) <= u64_max ->
  matches f file_size = spec_matches f file_size.
Proof.
  intros H. unfold matches, spec_matches.
  rewrite (to_bytes_exact f H).
  set (t := value f * unit_factor (unit f)) in *.
  assert (Htol : match unit f with
                 | Bytes => 0 | Kilobytes => 512 | Megabytes => 524288
                 | Gigabytes => 536870912 end = spec_tolerance (unit f))
    by (destruct (unit f); reflexivity).
  destruct (comparison f); [|reflexivity|reflexivity].
  rewrite Htol. unfold u64_saturating_sub, u64_saturating_add.
  assert (0 <= spec_tolerance (unit f)) by (destruct (unit f); cbn; lia).
  destruct (Z.ltb_spec t (spec_tolerance (unit f)));
  destruct (Z.ltb_spec u64_max (t + spec_tolerance (unit f)));
    f_equal; f_equal; lia.
Qed.

(** Claim C2 (code defect): [to_bytes] multiplies without overflow
    checks, so a value of 2^34 gigabytes wraps to a target of 0 bytes; the
    filter parsed from [-17179869184G] then rejects an empty file although
    0 < 2^34 * 1024^3. *)
Theorem size_matches_overflow_wraps :
  exists f, parse "-17179869184G" = Ok f
    /\ to_bytes f = 0
    /\ matches f 0 = false
    /\ spec_matches f 0 = true.
Proof. eexists; split; [reflexivity|]. repeat split; reflexivity. Qed.

End filesize_proofs.

Module time_proofs.
Import time.

Lemma to_duration_exact (f : TimeFilter) :
  Z.abs (value f) * unit_secs (unit f) <= u64_max ->
  to_duration f = Z.abs (value f) * unit_secs (unit f) * nanos_per_sec.
Proof.
  intros H. unfold to_duration, unsigned_abs, from_secs, mul_u64.
  pose proof (Z.abs_nonneg (value f)) as Ha.
  set (a := Z.abs (value f)) in *. unfold u64_max in H.
  change (2 ^ 64 - 1) with 18446744073709551615 in H.
  change (2 ^ 64) with 18446744073709551616.
  destruct (unit f); cbn [unit_secs] in *.
  - lia.
  - rewrite Z.mod_small by lia. reflexivity.
  - rewrite (Z.mod_small (a * 60)) by lia. rewrite Z.mod_small by lia. ring.
  - rewrite (Z.mod_small (a * 24)) by lia. rewrite (Z.mod_small (a * 24 * 60)) by lia.
    rewrite Z.mod_small by lia. ring.
Qed.

Lemma age_is_max (file_time now : Z) :
  match duration_since now file_time with Some d => d | None => Duration_ZERO end
  = Z.max 0 (now - file_time).
Proof.
  unfold duration_since, Duration_ZERO.
  destruct (Z.leb_spec file_time now); lia.
Qed.

Lemma tolerance_is_spec (u : TimeUnit) :
  match u with
  | Seconds => from_secs 2 | Minutes => from_secs 30
  | Hours => from_secs (60 * 30) | Days => from_secs (60 * 60 * 12)
  end = tolerance_secs u * nanos_per_sec.
Proof. destruct u; reflexivity. Qed.

(** Claim C1 (counterexample): the filter parsed from [--1s] has value -1;
    [matches] compares the age with |-1| second, so a file of age 0 is
    accepted, while [age < N*u] with N = -1 is false. *)
Lemma time_matches_negative_value :
  let f := {| comparison := Lesser; value := -1; unit := Seconds |} in
  parse "--1s" = Ok f
  /\ matches f 0 0 = true
  /\ spec_matches (comparison f) (value f) (unit f) 0 0 = false.
Proof. repeat split; reflexivity. Qed.

(** Claim C1 (as amended): [matches] compares the age [max(0, now -
    file_time)] with |N| units, N being the signed value of the filter:
    within the unit's tolerance band (saturating bounds) for [Exactly],
    strictly below for [Lesser], strictly above for [Greater]; this holds
    whenever |N| units fit in a [u64] count of seconds. *)
Theorem time_matches_abs_value (f : TimeFilter) (file_time now : Z) :
  Z.abs (value f) * unit_secs (unit f) <= u64_max ->
  matches f file_time now
  = spec_matches (comparison f) (Z.abs (value f)) (unit f) file_time now.
Proof.
  intros H. unfold matches, spec_matches.
  rewrite (to_duration_exact f H), age_is_max, tolerance_is_spec.
  set (d := Z.abs (value f) * unit_secs (unit f) * nanos_per_sec).
  set (t := tolerance_secs (unit f) * nanos_per_sec).
  destruct (comparison f); [|reflexivity|reflexivity].
  assert (0 <= d) by (pose proof (Z.abs_nonneg (value f));
                      subst d; unfold nanos_per_sec; destruct (unit f); cbn; lia).
  assert (0 <= t) by (subst t; unfold nanos_per_sec; destruct (unit f); cbn; lia).
  unfold saturating_sub, saturating_add, Duration_ZERO.
  destruct (Z.ltb_spec d t); destruct (Z.ltb_spec duration_max (d + t));
    f_equal; f_equal; lia.
Qed.

Lemma time_matches_abs_value_witness :
  let f := {| comparison := Exactly; value := -3; unit := Days |} in
  Z.abs (value f) * unit_secs (unit f) <= u64_max
  /\ matches f 0 (3 * 86400 * nanos_per_sec + 5) = true.
Proof.
  intros f. assert (H : Z.abs (value f) * unit_secs (unit f) <= u64_max)
    by (vm_compute; discriminate).
  split; [exact H|].
  rewrite (time_matches_abs_value f 0 _ H). reflexivity.
Defined.

End time_proofs.

(** ** The integer parser of [core] *)
Module int_proofs.

Lemma to_digit_range (c : ascii) (d : Z) : to_digit c = Some d -> 0 <= d <= 9.
Proof.
  unfold to_digit. destruct ((48 <=? nat_of_ascii c)%nat && (nat_of_ascii c <=? 57)%nat) eqn:E;
    [|discriminate].
  intros Hv; injection Hv as <-. apply andb_prop in E as [E1 E2].
  apply Nat.leb_le in E1, E2. lia.
Qed.

Lemma to_digit_not_sign (c : ascii) (d : Z) : to_digit c = Some d -> is_sign c = false.
Proof.
  intros H. unfold is_sign.
  destruct (Ascii.eqb_spec c "+"%char) as [->|]; [discriminate|].
  destruct (Ascii.eqb_spec c "-"%char) as [->|]; [discriminate|reflexivity].
Qed.

Lemma dec_value_mono (s : string) (a v : Z) :
  0 <= a -> dec_value s a = Some v -> a <= v.
Proof.
  revert a. induction s as [|c r IH]; intros a Ha H; cbn in H.
  - injection H; lia.
  - destruct (to_digit c) as [d|] eqn:Ed; [|discriminate].
    apply to_digit_range in Ed. apply IH in H; lia.
Qed.

Lemma accumulate_pos_spec (hi : Z) (s : string) (a : Z) :
  0 <= a <= hi ->
  accumulate_pos hi s a
  = match dec_value s a with
    | Some v => if v <=? hi then Some v else None
    | None => None
    end.
Proof.
  revert a. induction s as [|c r IH]; intros a Ha; cbn.
  - destruct (Z.leb_spec a hi); [reflexivity|lia].
  - destruct (to_digit c) as [d|] eqn:Ed; [|reflexivity].
    apply to_digit_range in Ed.
    destruct (Z.ltb_spec hi (a * 10)); [|destruct (Z.ltb_spec hi (a * 10 + d))].
    + destruct (dec_value r (a * 10 + d)) as [v|] eqn:Ev; [|reflexivity].
      apply dec_value_mono in Ev; [|lia].
      destruct (Z.leb_spec v hi); [lia|reflexivity].
    + destruct (dec_value r (a * 10 + d)) as [v|] eqn:Ev; [|reflexivity].
      apply dec_value_mono in Ev; [|lia].
      destruct (Z.leb_spec v hi); [lia|reflexivity].
    + apply IH. lia.
Qed.

Lemma accumulate_neg_spec (lo : Z) (s : string) (a : Z) :
  lo <= a <= 0 ->
  accumulate_neg lo s a
  = match dec_value s (- a) with
    | Some v => if lo <=? - v then Some (- v) else None
    | None => None
    end.
Proof.
  revert a. induction s as [|c r IH]; intros a Ha; cbn.
  - rewrite Z.opp_involutive. destruct (Z.leb_spec lo a); [reflexivity|lia].
  - destruct (to_digit c) as [d|] eqn:Ed; [|reflexivity].
    apply to_digit_range in Ed.
    replace (- a * 10 + d) with (- (a * 10 - d)) by ring.
    destruct (Z.ltb_spec (a * 10) lo); [|destruct (Z.ltb_spec (a * 10 - d) lo)].
    + destruct (dec_value r (- (a * 10 - d))) as [v|] eqn:Ev; [|reflexivity].
      apply dec_value_mono in Ev; [|lia].
      destruct (Z.leb_spec lo (- v)); [lia|reflexivity].
    + destruct (dec_value r (- (a * 10 - d))) as [v|] eqn:Ev; [|reflexivity].
      apply dec_value_mono in Ev; [|lia].
      destruct (Z.leb_spec lo (- v)); [lia|reflexivity].
    + apply IH. lia.
Qed.

Ltac grammar_goal :=
  first [ reflexivity | assumption | lia | discriminate
        | (left; reflexivity) | (right; left; reflexivity)
        | (right; right; split; reflexivity)
        | (match goal with Eg : _ && _ = false |- _ <> _ =>
             intros ->; cbn in Eg; discriminate end) ].

(** [from_str] accepts exactly the integer grammar. *)
Lemma from_str_int_spec (is_signed_ty : bool) (lo hi : Z) (s : string) (v : Z) :
  lo <= 0 <= hi ->
  from_str_int is_signed_ty lo hi s = Some v <-> int_grammar is_signed_ty lo hi s v.
Proof.
  intros Hb. unfold int_grammar. split.
  - destruct s as [|c rest]; [discriminate|]. cbn [from_str_int].
    destruct (is_sign c && String.eqb rest "") eqn:Eg; [discriminate|].
    destruct (Ascii.eqb_spec c "+"%char) as [->|Hp].
    + rewrite accumulate_pos_spec by lia.
      destruct (dec_value rest 0) as [n|] eqn:Ed; [|discriminate].
      destruct (Z.leb_spec n hi); [|discriminate]. intros Hv; injection Hv as <-.
      exists "+", rest, n. pose proof (dec_value_mono _ 0 n ltac:(lia) Ed).
      repeat split; grammar_goal.
    + destruct (Ascii.eqb_spec c "-"%char) as [->|Hm]; destruct is_signed_ty eqn:Es;
        cbn [andb].
      * rewrite accumulate_neg_spec by lia. cbn [Z.opp].
        destruct (dec_value rest 0) as [n|] eqn:Ed; [|discriminate].
        destruct (Z.leb_spec lo (- n)); [|discriminate]. intros Hv; injection Hv as <-.
        exists "-", rest, n. pose proof (dec_value_mono _ 0 n ltac:(lia) Ed).
        repeat split; grammar_goal.
      * rewrite accumulate_pos_spec by lia. cbn. discriminate.
      * rewrite accumulate_pos_spec by lia.
        destruct (dec_value (String c rest) 0) as [n|] eqn:Ed; [|discriminate].
        destruct (Z.leb_spec n hi); [|discriminate]. intros Hv; injection Hv as <-.
        exists "", (String c rest), n. pose proof (dec_value_mono _ 0 n ltac:(lia) Ed).
        repeat split; grammar_goal.
      * rewrite accumulate_pos_spec by lia.
        destruct (dec_value (String c rest) 0) as [n|] eqn:Ed; [|discriminate].
        destruct (Z.leb_spec n hi); [|discriminate]. intros Hv; injection Hv as <-.
        exists "", (String c rest), n. pose proof (dec_value_mono _ 0 n ltac:(lia) Ed).
        repeat split; grammar_goal.
  - intros (sign & digits & n & -> & Hs & Hd & Ed & -> & Hr).
    pose proof (dec_value_mono digits 0 n ltac:(lia) Ed) as Hn.
    assert (Hne : String.eqb digits "" = false)
      by (destruct (String.eqb_spec digits ""); congruence).
    destruct Hs as [->|[->|[Es ->]]]; cbn [String.append] in *.
    + change (if String.eqb "" "-" then - n else n) with n in Hr.
      destruct digits as [|c r]; [congruence|].
      cbn [dec_value] in Ed. destruct (to_digit c) as [d|] eqn:Ec; [|discriminate].
      pose proof (to_digit_not_sign c d Ec) as Hc. unfold is_sign in Hc.
      apply orb_false_elim in Hc as [Hc1 Hc2].
      cbn [from_str_int]. unfold is_sign. rewrite Hc1, Hc2. cbn [orb andb].
      rewrite accumulate_pos_spec by lia. cbn [dec_value]. rewrite Ec, Ed.
      destruct (Z.leb_spec n hi); [reflexivity|lia].
    + change (if String.eqb "+" "-" then - n else n) with n in Hr.
      cbn [from_str_int]. rewrite Hne. cbn.
      rewrite accumulate_pos_spec by lia. rewrite Ed.
      destruct (Z.leb_spec n hi); [reflexivity|lia].
    + change (if String.eqb "-" "-" then - n else n) with (- n) in Hr.
      subst is_signed_ty. cbn [from_str_int]. rewrite Hne. cbn.
      rewrite accumulate_neg_spec by lia. cbn [Z.opp]. rewrite Ed.
      destruct (Z.leb_spec lo (- n)); [reflexivity|lia].
Qed.

End int_proofs.

(** ** Facts about the [str] helpers *)
Module str_proofs.

Lemma chars_last_cons (c : ascii) (t : string) :
  t <> "" -> chars_last (String c t) = chars_last t.
Proof. destruct t; [congruence|reflexivity]. Qed.

Lemma chars_last_app (b : string) (u : ascii) : chars_last (b ++ String u "") = Some u.
Proof.
  induction b as [|c r IH]; [reflexivity|].
  cbn [String.append]. rewrite chars_last_cons by (destruct r; discriminate). exact IH.
Qed.

Lemma chars_last_inv (s : string) (u : ascii) :
  chars_last s = Some u -> exists b, s = b ++ String u "".
Proof.
  induction s as [|c r IH]; [discriminate|].
  destruct r as [|c' r'].
  - intros H; injection H as <-. exists "". reflexivity.
  - intros H. rewrite chars_last_cons in H by discriminate.
    destruct (IH H) as [b Hb]. exists (String c b). cbn. now rewrite Hb.
Qed.

Lemma substring_app (b t : string) : substring 0 (String.length b) (b ++ t) = b.
Proof.
  induction b as [|c r IH]; cbn.
  - destruct t; reflexivity.
  - now rewrite IH.
Qed.

Lemma length_app_char (b : string) (u : ascii) :
  String.length (b ++ String u "") = S (String.length b).
Proof. induction b as [|c r IH]; cbn; [reflexivity|now rewrite IH]. Qed.

Lemma str_upto_app (b : string) (u : ascii) :
  str_upto (String.length (b ++ String u "") - 1) (b ++ String u "") = b.
Proof.
  unfold str_upto. rewrite length_app_char.
  replace (S (String.length b) - 1)%nat with (String.length b) by lia.
  apply substring_app.
Qed.

Lemma starts_with_sign_app (b : string) (u : ascii) :
  is_sign u = false ->
  starts_with_sign (b ++ String u "") = starts_with_sign b.
Proof. destruct b; cbn; [exact id|reflexivity]. Qed.

End str_proofs.

Lemma i64_bounds : i64_min <= 0 <= i64_max.
Proof. split; apply Z.leb_le; reflexivity. Qed.

Lemma u64_bounds : 0 <= 0 <= u64_max.
Proof. split; apply Z.leb_le; reflexivity. Qed.

Ltac sign_cases c :=
  destruct (Ascii.eqb_spec c "+"%char) as [->|?];
  [|destruct (Ascii.eqb_spec c "-"%char) as [->|?]].

Module time_parse_proofs.
Import time str_proofs int_proofs.

Lemma time_unit_of_spec (c : ascii) (u : TimeUnit) : unit_of c = Some u <-> c = unit_char u.
Proof.
  split.
  - unfold unit_of.
    destruct (Ascii.eqb_spec c "s"%char) as [->|]; [intros H; injection H as <-; reflexivity|].
    destruct (Ascii.eqb_spec c "m"%char) as [->|]; [intros H; injection H as <-; reflexivity|].
    destruct (Ascii.eqb_spec c "d"%char) as [->|]; [intros H; injection H as <-; reflexivity|].
    destruct (Ascii.eqb_spec c "h"%char) as [->|]; [intros H; injection H as <-; reflexivity|].
    discriminate.
  - intros ->. destruct u; reflexivity.
Qed.

Lemma time_sign_of_spec (s : string) (cmp : TimeComparison) (rest : string) :
  sign_of s = Some (cmp, rest)
  <-> s = sign_prefix cmp ++ rest
      /\ (cmp = Exactly -> starts_with_sign rest = false /\ rest <> "").
Proof.
  split.
  - destruct s as [|c r]; [discriminate|]. unfold sign_of; cbn [chars_next str_from1].
    sign_cases c.
    + intros H; injection H as <- <-. split; [reflexivity|discriminate].
    + intros H; injection H as <- <-. split; [reflexivity|discriminate].
    + intros H; injection H as <- <-. split; [reflexivity|].
      intros _. split; [|discriminate]. cbn. unfold is_sign.
      destruct (Ascii.eqb_spec c "+"%char); [contradiction|].
      destruct (Ascii.eqb_spec c "-"%char); [contradiction|reflexivity].
  - intros [-> Hx]. destruct cmp; [|reflexivity|reflexivity].
    destruct (Hx eq_refl) as [Hw Hne].
    destruct rest as [|c r]; [congruence|]. cbn in Hw. unfold is_sign in Hw.
    apply orb_false_elim in Hw as [H1 H2].
    unfold sign_of; cbn [chars_next sign_prefix String.append]. rewrite H1, H2. reflexivity.
Qed.

Lemma time_parse_decompose (s : string) (f : TimeFilter) :
  parse s = Ok f
  <-> exists rest body,
        sign_of s = Some (comparison f, rest)
        /\ rest = body ++ String (unit_char (unit f)) ""
        /\ parse_i64 body = Some (value f).
Proof.
  split.
  - unfold parse. fold (sign_of s).
    destruct (sign_of s) as [[cmp rest]|] eqn:Es; [|discriminate].
    destruct (chars_last rest) as [u|] eqn:El; [|discriminate].
    fold (unit_of u). destruct (unit_of u) as [un|] eqn:Eu; [|discriminate].
    destruct (chars_last_inv rest u El) as [b ->].
    cbv zeta. rewrite str_upto_app.
    destruct (parse_i64 b) as [v|] eqn:Ei; [|discriminate].
    intros H; injection H as <-. apply time_unit_of_spec in Eu. subst u.
    exists (b ++ String (unit_char un) ""), b. auto.
  - intros (rest & body & Es & -> & Ei).
    unfold parse. fold (sign_of s). rewrite Es, chars_last_app.
    fold (unit_of (unit_char (unit f))).
    rewrite (proj2 (time_unit_of_spec _ (unit f)) eq_refl).
    cbv zeta. rewrite str_upto_app, Ei. destruct f; reflexivity.
Qed.

(** Claim C3 (counterexample): [+-5m] is accepted, as [Greater] with the
    value -5, since the [i64] parser takes the second sign. *)
Lemma time_parse_accepts_second_sign :
  parse "+-5m" = Ok {| comparison := Greater; value := -5; unit := Minutes |}.
Proof. reflexivity. Qed.

(** Claim C3 (as amended): [parse] succeeds exactly on the strings
    [sign ++ body ++ unit] where [sign] is [+] (Greater), [-] (Lesser) or
    empty (Exactly, the body then not starting with a sign), [unit] is one
    of [s], [m], [h], [d], and [body] is accepted by Rust's [i64] parser:
    an optional [+] or [-], then one or more decimal digits, the value in
    the [i64] range; the value of the filter is that signed number. *)
Theorem time_parse_grammar (s : string) (f : TimeFilter) :
  parse s = Ok f
  <-> exists body,
        s = sign_prefix (comparison f) ++ body ++ String (unit_char (unit f)) ""
        /\ (comparison f = Exactly -> starts_with_sign body = false)
        /\ int_grammar true i64_min i64_max body (value f).
Proof.
  assert (Hu : is_sign (unit_char (unit f)) = false) by (destruct (unit f); reflexivity).
  rewrite time_parse_decompose. split.
  - intros (rest & body & Es & -> & Ei). apply time_sign_of_spec in Es as [Hs Hx].
    exists body. split; [exact Hs|]. split.
    + intros He. destruct (Hx He) as [Hw _].
      rewrite starts_with_sign_app in Hw by exact Hu. exact Hw.
    + apply from_str_int_spec; [exact i64_bounds|exact Ei].
  - intros (body & Hs & Hx & Hg).
    exists (body ++ String (unit_char (unit f)) ""), body.
    split; [|split; [reflexivity|apply from_str_int_spec; [exact i64_bounds|exact Hg]]].
    apply time_sign_of_spec. split; [exact Hs|].
    intros He. split.
    + rewrite starts_with_sign_app by exact Hu. exact (Hx He).
    + destruct body; discriminate.
Qed.

End time_parse_proofs.

Module filesize_parse_proofs.
Import filesize str_proofs int_proofs.

Lemma size_unit_of_spec (c : ascii) (u : SizeUnit) : unit_of c = Some u <-> c = unit_char u.
Proof.
  split.
  - unfold unit_of.
    destruct (Ascii.eqb_spec c "c"%char) as [->|]; [intros H; injection H as <-; reflexivity|].
    destruct (Ascii.eqb_spec c "k"%char) as [->|]; [intros H; injection H as <-; reflexivity|].
    destruct (Ascii.eqb_spec c "M"%char) as [->|]; [intros H; injection H as <-; reflexivity|].
    destruct (Ascii.eqb_spec c "G"%char) as [->|]; [intros H; injection H as <-; reflexivity|].
    discriminate.
  - intros ->. destruct u; reflexivity.
Qed.

Lemma size_sign_of_spec (s : string) (cmp : SizeComparison) (rest : string) :
  sign_of s = Some (cmp, rest)
  <-> s = sign_prefix cmp ++ rest
      /\ (cmp = Exactly -> starts_with_sign rest = false /\ rest <> "").
Proof.
  split.
  - destruct s as [|c r]; [discriminate|]. unfold sign_of; cbn [chars_next str_from1].
    sign_cases c.
    + intros H; injection H as <- <-. split; [reflexivity|discriminate].
    + intros H; injection H as <- <-. split; [reflexivity|discriminate].
    + intros H; injection H as <- <-. split; [reflexivity|].
      intros _. split; [|discriminate]. cbn. unfold is_sign.
      destruct (Ascii.eqb_spec c "+"%char); [contradiction|].
      destruct (Ascii.eqb_spec c "-"%char); [contradiction|reflexivity].
  - intros [-> Hx]. destruct cmp; [|reflexivity|reflexivity].
    destruct (Hx eq_refl) as [Hw Hne].
    destruct rest as [|c r]; [congruence|]. cbn in Hw. unfold is_sign in Hw.
    apply orb_false_elim in Hw as [H1 H2].
    unfold sign_of; cbn [chars_next sign_prefix String.append]. rewrite H1, H2. reflexivity.
Qed.

Lemma size_parse_decompose (s : string) (f : SizeFilter) :
  parse s = Ok f
  <-> exists rest body,
        sign_of s = Some (comparison f, rest)
        /\ rest = body ++ String (unit_char (unit f)) ""
        /\ parse_u64 body = Some (value f).
Proof.
  split.
  - unfold parse. fold (sign_of s).
    destruct (sign_of s) as [[cmp rest]|] eqn:Es; [|discriminate].
    destruct (chars_last rest) as [u|] eqn:El; [|discriminate].
    fold (unit_of u). destruct (unit_of u) as [un|] eqn:Eu; [|discriminate].
    destruct (chars_last_inv rest u El) as [b ->].
    cbv zeta. rewrite str_upto_app.
    destruct (parse_u64 b) as [v|] eqn:Ei; [|discriminate].
    intros H; injection H as <-. apply size_unit_of_spec in Eu. subst u.
    exists (b ++ String (unit_char un) ""), b. auto.
  - intros (rest & body & Es & -> & Ei).
    unfold parse. fold (sign_of s). rewrite Es, chars_last_app.
    fold (unit_of (unit_char (unit f))).
    rewrite (proj2 (size_unit_of_spec _ (unit f)) eq_refl).
    cbv zeta. rewrite str_upto_app, Ei. destruct f; reflexivity.
Qed.

(** Claim C6 (counterexample): [++5k] and [-+5k] are accepted, the [u64]
    parser taking a [+] before the digits. *)
Lemma size_parse_accepts_plus_in_number :
  parse "++5k" = Ok {| comparison := Greater; value := 5; unit := Kilobytes |}
  /\ parse "-+5k" = Ok {| comparison := Lesser; value := 5; unit := Kilobytes |}.
Proof. split; reflexivity. Qed.

(** Claim C6 (as amended): [parse] succeeds exactly on the strings
    [sign ++ body ++ unit] where [sign] is [+] (Greater), [-] (Lesser) or
    empty (Exactly, the body then not starting with a sign), [unit] is one
    of [c], [k], [M], [G] (case-sensitive), and [body] is accepted by Rust's
    [u64] parser: an optional [+], then one or more decimal digits, the
    value at most 2^64 - 1. *)
Theorem size_parse_grammar (s : string) (f : SizeFilter) :
  parse s = Ok f
  <-> exists body,
        s = sign_prefix (comparison f) ++ body ++ String (unit_char (unit f)) ""
        /\ (comparison f = Exactly -> starts_with_sign body = false)
        /\ int_grammar false 0 u64_max body (value f).
Proof.
  assert (Hu : is_sign (unit_char (unit f)) = false) by (destruct (unit f); reflexivity).
  rewrite size_parse_decompose. split.
  - intros (rest & body & Es & -> & Ei). apply size_sign_of_spec in Es as [Hs Hx].
    exists body. split; [exact Hs|]. split.
    + intros He. destruct (Hx He) as [Hw _].
      rewrite starts_with_sign_app in Hw by exact Hu. exact Hw.
    + apply from_str_int_spec; [exact u64_bounds|exact Ei].
  - intros (body & Hs & Hx & Hg).
    exists (body ++ String (unit_char (unit f)) ""), body.
    split; [|split; [reflexivity|apply from_str_int_spec; [exact u64_bounds|exact Hg]]].
    apply size_sign_of_spec. split; [exact Hs|].
    intros He. split.
    + rewrite starts_with_sign_app by exact Hu. exact (Hx He).
    + destruct body; discriminate.
Qed.

End filesize_parse_proofs.

(** ** More of [src/permissions.rs] *)
Module permissions_extra_proofs.
Import permissions permissions_proofs.

Lemma mode_has_bit (m k : Z) : 0 <= k -> mode_has m (2 ^ k) = Z.testbit m k.
Proof.
  intros Hk. unfold mode_has. rewrite bits.land_pow2 by exact Hk.
  destruct (Z.testbit m k); [|reflexivity].
  destruct (Z.eqb_spec (2 ^ k) 0) as [E|E]; [|reflexivity].
  pose proof (Z.pow_pos_nonneg 2 k ltac:(lia) Hk). lia.
Qed.

(** [get_permission_string] spelled out bit by bit. *)
Lemma perm_string_normal (md : Metadata) :
  let m := st_mode md in
  get_permission_string md =
  String (file_type_char m)
  (String (if Z.testbit m 8 then "r" else "-")%char
  (String (if Z.testbit m 7 then "w" else "-")%char
  (String (if Z.testbit m 11 then if Z.testbit m 6 then "s" else "S"
           else if Z.testbit m 6 then "x" else "-")%char
  (String (if Z.testbit m 5 then "r" else "-")%char
  (String (if Z.testbit m 4 then "w" else "-")%char
  (String (if Z.testbit m 10 then if Z.testbit m 3 then "s" else "S"
           else if Z.testbit m 3 then "x" else "-")%char
  (String (if Z.testbit m 2 then "r" else "-")%char
  (String (if Z.testbit m 1 then "w" else "-")%char
  (String (if Z.testbit m 9 then if Z.testbit m 0 then "t" else "T"
           else if Z.testbit m 0 then "x" else "-")%char
  EmptyString))))))))).
Proof.
  intros m. unfold get_permission_string, push. cbv zeta. fold m.
  change 256 with (2 ^ 8). change 128 with (2 ^ 7). change 2048 with (2 ^ 11).
  change 64 with (2 ^ 6). change 32 with (2 ^ 5). change 16 with (2 ^ 4).
  change 1024 with (2 ^ 10). change 8 with (2 ^ 3). change 4 with (2 ^ 2).
  change 2 with (2 ^ 1). change 512 with (2 ^ 9). change 1 with (2 ^ 0).
  rewrite !mode_has_bit by lia. reflexivity.
Qed.

Lemma special_mode_testbit (md : Metadata) :
  has_special_mode md SetUID = Z.testbit (st_mode md) 11
  /\ has_special_mode md SetGID = Z.testbit (st_mode md) 10
  /\ has_special_mode md Sticky = Z.testbit (st_mode md) 9.
Proof.
  unfold has_special_mode.
  change 2048 with (2 ^ 11). change 1024 with (2 ^ 10). change 512 with (2 ^ 9).
  fold (mode_has (st_mode md) (2 ^ 11)) (mode_has (st_mode md) (2 ^ 10))
       (mode_has (st_mode md) (2 ^ 9)).
  rewrite !mode_has_bit by lia. auto.
Qed.

(** [has_special_mode] reads bit 11 (setuid), 10 (setgid) and 9 (sticky)
    of the mode, and the [u+s] / [g+s] permission filters agree with its
    setuid / setgid answers ([u-s] / [g-s] with their negations). *)
Theorem has_special_mode_bits (md : Metadata) :
  has_special_mode md SetUID = Z.testbit (st_mode md) 11
  /\ has_special_mode md SetGID = Z.testbit (st_mode md) 10
  /\ has_special_mode md Sticky = Z.testbit (st_mode md) 9
  /\ (forall e, matches {| mode := User; perm_type := SetID; expected := e |} md
                = Bool.eqb (has_special_mode md SetUID) e)
  /\ (forall e, matches {| mode := Group; perm_type := SetID; expected := e |} md
                = Bool.eqb (has_special_mode md SetGID) e).
Proof.
  destruct (special_mode_testbit md) as (H1 & H2 & H3).
  repeat split; auto.
Qed.

(** Every permission string has ten characters. *)
Theorem perm_string_length (md : Metadata) :
  String.length (get_permission_string md) = 10%nat.
Proof. rewrite perm_string_normal. reflexivity. Qed.

(** The setuid, setgid and sticky bits show in the permission string:
    character 3 is [s] or [S] iff [has_special_mode SetUID], character 6 is
    [s] or [S] iff [has_special_mode SetGID], character 9 is [t] or [T] iff
    [has_special_mode Sticky]; the lowercase letter is used exactly when the
    execute bit of that field is also set. *)
Theorem perm_string_special_bits (md : Metadata) :
  let s := get_permission_string md in
  let m := st_mode md in
  (In (String.get 3 s) [Some "s"; Some "S"]%char <-> has_special_mode md SetUID = true)
  /\ (In (String.get 6 s) [Some "s"; Some "S"]%char <-> has_special_mode md SetGID = true)
  /\ (In (String.get 9 s) [Some "t"; Some "T"]%char <-> has_special_mode md Sticky = true)
  /\ (String.get 3 s = Some "s"%char <-> Z.testbit m 11 = true /\ Z.testbit m 6 = true)
  /\ (String.get 6 s = Some "s"%char <-> Z.testbit m 10 = true /\ Z.testbit m 3 = true)
  /\ (String.get 9 s = Some "t"%char <-> Z.testbit m 9 = true /\ Z.testbit m 0 = true).
Proof.
  intros s m. subst s. rewrite perm_string_normal. fold m.
  destruct (special_mode_testbit md) as (H1 & H2 & H3). rewrite H1, H2, H3. fold m.
  cbn [String.get].
  destruct (Z.testbit m 11), (Z.testbit m 10), (Z.testbit m 9),
           (Z.testbit m 6), (Z.testbit m 3), (Z.testbit m 0);
    cbn; intuition congruence.
Qed.

(** The [u], [g], [o] filters with [+] and [r], [w] or [x] agree with the
    permission string: the filter matches iff the character of that
    permission is its letter ([r], [w], or for [x] one of [x], [s], [t]). *)
Theorem perm_filter_agrees_with_string (md : PermissionMode) (p : PermissionType)
  (meta : Metadata) :
  md <> All -> p <> SetID ->
  matches {| mode := md; perm_type := p; expected := true |} meta = true
  <-> exists c, String.get (perm_char_index md p) (get_permission_string meta) = Some c
                /\ In c (set_letters p).
Proof.
  intros Hm Hp. rewrite perm_string_normal.
  unfold matches; cbn [mode perm_type expected].
  change 7 with (7 * 2 ^ 0). change 448 with (7 * 2 ^ 6). change 56 with (7 * 2 ^ 3).
  set (m := st_mode meta).
  destruct md; [| | |congruence]; destruct p; try congruence;
    rewrite check_field by (auto; lia); cbn -[Z.testbit];
    repeat match goal with |- context [Z.testbit m ?k] => destruct (Z.testbit m k) end;
    cbn; split; (intros [c [Hc Hin]] || intros H);
    try (injection Hc as <-); try (eexists; split; [reflexivity|]);
    cbn in *; intuition discriminate.
Qed.

Lemma perm_filter_agrees_with_string_witness :
  Group <> All /\ Execute <> SetID /\
  matches {| mode := Group; perm_type := Execute; expected := true |}
    {| st_mode := 17407 |} = true.
Proof.
  split; [discriminate|]. split; [discriminate|].
  apply (perm_filter_agrees_with_string Group Execute {| st_mode := 17407 |}
           ltac:(discriminate) ltac:(discriminate)).
  exists "x"%char. split; [reflexivity|]. cbn. auto.
Defined.

(** A filter with [-] is the negation of the same filter with [+]: for
    every subject, permission and mode, exactly one of [u+x] and [u-x]
    (and so on) matches. *)
Theorem perm_polarity_negates (m : PermissionMode) (p : PermissionType) (meta : Metadata) :
  matches {| mode := m; perm_type := p; expected := false |} meta
  = negb (matches {| mode := m; perm_type := p; expected := true |} meta).
Proof.
  unfold matches. cbn [permissions.mode expected].
  destruct m; unfold check_permission; cbn [perm_type permissions.mode];
    match goal with |- Bool.eqb ?r false = negb (Bool.eqb ?r true) => destruct r end;
    reflexivity.
Qed.

(** The setid type is only read for [u] and [g]: [o+s] and [a+s] match
    no file, [o-s] and [a-s] match every file. *)
Theorem perm_setid_others_all_constant (m : PermissionMode) (e : bool) (meta : Metadata) :
  m = Others \/ m = All ->
  matches {| mode := m; perm_type := SetID; expected := e |} meta = negb e.
Proof.
  intros [-> | ->]; destruct e; reflexivity.
Qed.

Lemma perm_setid_others_all_constant_witness :
  (Others = Others \/ Others = All)
  /\ matches {| mode := Others; perm_type := SetID; expected := true |}
       {| st_mode := 3583 |} = false.
Proof.
  split; [left; reflexivity|].
  apply (perm_setid_others_all_constant Others true {| st_mode := 3583 |}).
  left; reflexivity.
Defined.

(** [parse] and [render] are inverse: each filter is parsed from exactly
    one string, its three characters [mode], [+] or [-], and [type]. *)
Theorem perm_parse_render (s : string) (f : PermissionFilter) :
  parse s = Ok f <-> s = render f.
Proof.
  split.
  - destruct s as [|c0 [|c1 [|c2 [|c3 r]]]]; try discriminate.
    unfold parse; cbn [list_ascii_of_string List.length Nat.eqb negb nth].
    intros H. ascii_cases; try discriminate; injection H as <-; reflexivity.
  - intros ->. destruct f as [m p e]; destruct m, p, e; reflexivity.
Qed.

(** An ownership filter matches iff each of its ids is absent or equal to
    the file's: [new None None] matches every file. *)
Theorem ownership_matches_iff (u g : option Z) (md : OwnerIds) :
  OwnershipFilter_matches (OwnershipFilter_new u g) md = true
  <-> (u = None \/ u = Some (st_uid md)) /\ (g = None \/ g = Some (st_gid md)).
Proof.
  unfold OwnershipFilter_matches, OwnershipFilter_new; cbn [uid gid].
  rewrite andb_true_iff.
  destruct u as [u|], g as [g|]; rewrite ?Z.eqb_eq; intuition congruence.
Qed.

Lemma land_sub (m L K : Z) : Z.land L K = K -> Z.land (Z.land m L) K = Z.land m K.
Proof. intros H. rewrite <- Z.land_assoc, H. reflexivity. Qed.

(** The permission string reads only the 16 low bits of the mode (type and
    permission bits), the filters only its 12 low bits. *)
Theorem perm_reads_low_bits (m : Z) (f : PermissionFilter) :
  get_permission_string {| st_mode := m |}
  = get_permission_string {| st_mode := Z.land m 65535 |}
  /\ matches f {| st_mode := m |} = matches f {| st_mode := Z.land m 4095 |}.
Proof.
  split.
  - rewrite !perm_string_normal. cbv zeta; cbn [st_mode].
    assert (Hb : forall k, 0 <= k < 16 -> Z.testbit (Z.land m 65535) k = Z.testbit m k).
    { intros k Hk. rewrite Z.land_spec.
      replace 65535 with (Z.ones 16) by reflexivity.
      rewrite Z.ones_spec_low by lia. apply andb_true_r. }
    rewrite !Hb by lia. unfold file_type_char.
    rewrite land_sub by reflexivity. reflexivity.
  - destruct f as [md p e]. unfold matches, check_permission.
    cbn [st_mode permissions.mode perm_type].
    destruct md, p; rewrite ?(land_sub m 4095) by reflexivity; reflexivity.
Qed.

End permissions_extra_proofs.

Module str_extra_proofs.
Import str_proofs.

Lemma chars_last_app_r (a t : string) : t <> "" -> chars_last (a ++ t) = chars_last t.
Proof.
  intros Ht. induction a as [|c r IH]; [reflexivity|].
  cbn [String.append]. rewrite chars_last_cons; [exact IH|].
  destruct r, t; cbn; congruence.
Qed.

End str_extra_proofs.

Module filesize_extra_proofs.
Import filesize filesize_proofs filesize_parse_proofs str_extra_proofs.

Lemma to_bytes_cmp (c c' : SizeComparison) (v : Z) (u : SizeUnit) :
  to_bytes {| comparison := c; value := v; unit := u |}
  = to_bytes {| comparison := c'; value := v; unit := u |}.
Proof. reflexivity. Qed.

(** [-N<u>] and [+N<u>] never both match a size, and together they match
    every size but the target [to_bytes] itself. *)
Theorem size_lesser_greater_split (v : Z) (u : SizeUnit) (file_size : Z) :
  let t := to_bytes {| comparison := Exactly; value := v; unit := u |} in
  matches {| comparison := Lesser; value := v; unit := u |} file_size
    && matches {| comparison := Greater; value := v; unit := u |} file_size = false
  /\ matches {| comparison := Lesser; value := v; unit := u |} file_size
    || matches {| comparison := Greater; value := v; unit := u |} file_size
     = negb (file_size =? t).
Proof.
  intros t. unfold matches; cbn [comparison].
  rewrite (to_bytes_cmp Lesser Exactly), (to_bytes_cmp Greater Exactly). fold t.
  destruct (Z.ltb_spec file_size t), (Z.ltb_spec t file_size), (Z.eqb_spec file_size t);
    cbn; split; try reflexivity; exfalso; lia.
Qed.

(** An [Exactly] filter with a value in the [u64] range always matches its
    own target size (the tolerance window never excludes it, also at the
    saturated ends); with the unit [c] it is exact equality. *)
Theorem size_exactly_contains_target (v : Z) (u : SizeUnit) :
  0 <= v <= u64_max ->
  matches {| comparison := Exactly; value := v; unit := u |}
    (to_bytes {| comparison := Exactly; value := v; unit := u |}) = true
  /\ (u = Bytes -> forall file_size,
        matches {| comparison := Exactly; value := v; unit := u |} file_size
        = (file_size =? v)).
Proof.
  intros H. set (f := {| comparison := Exactly; value := v; unit := u |}).
  split.
  - pose proof (to_bytes_wrapping f H) as E.
    assert (Ht : 0 <= to_bytes f <= u64_max).
    { rewrite E. unfold u64_max.
      pose proof (Z.mod_pos_bound (value f * unit_factor (unit f)) (2 ^ 64)
                    ltac:(reflexivity)). lia. }
    unfold matches. cbn [comparison]. set (t := to_bytes f) in *.
    unfold u64_saturating_sub, u64_saturating_add.
    destruct u; cbn [f unit];
      repeat match goal with |- context [?a <? ?b] => destruct (Z.ltb_spec a b) end;
      apply andb_true_iff; split; apply Z.leb_le; lia.
  - intros -> file_size. unfold f, matches; cbn [comparison unit to_bytes value].
    unfold u64_saturating_sub, u64_saturating_add.
    destruct (Z.ltb_spec v 0); [lia|]. destruct (Z.ltb_spec u64_max (v + 0)); [lia|].
    rewrite Z.sub_0_r, Z.add_0_r.
    destruct (Z.leb_spec v file_size), (Z.leb_spec file_size v), (Z.eqb_spec file_size v);
      cbn; reflexivity || lia.
Qed.

Lemma size_exactly_contains_target_witness :
  0 <= 5 <= u64_max
  /\ matches {| comparison := Exactly; value := 5; unit := Kilobytes |} 5120 = true.
Proof.
  assert (H : 0 <= 5 <= u64_max) by (split; apply Z.leb_le; reflexivity).
  split; [exact H|].
  exact (proj1 (size_exactly_contains_target 5 Kilobytes H)).
Defined.

(** Below and above comparisons only see the number of bytes: two filters
    whose value times unit factor are the same [u64] number select the same
    files ([+1k] and [+1024c], [-2G] and [-2048M]). *)
Theorem size_unit_scaling (c : SizeComparison) (v1 v2 : Z) (u1 u2 : SizeUnit)
  (file_size : Z) :
  c <> Exactly ->
  0 <= v1 * unit_factor u1 <= u64_max ->
  v1 * unit_factor u1 = v2 * unit_factor u2 ->
  matches {| comparison := c; value := v1; unit := u1 |} file_size
  = matches {| comparison := c; value := v2; unit := u2 |} file_size.
Proof.
  intros Hc H1 He. unfold matches.
  rewrite (to_bytes_exact {| comparison := c; value := v1; unit := u1 |}) by exact H1.
  rewrite (to_bytes_exact {| comparison := c; value := v2; unit := u2 |})
    by (cbn [value unit]; lia).
  cbn [comparison value unit]. rewrite He.
  destruct c; [congruence|reflexivity|reflexivity].
Qed.

Lemma size_unit_scaling_witness :
  Greater <> Exactly /\ 0 <= 1 * unit_factor Kilobytes <= u64_max
  /\ 1 * unit_factor Kilobytes = 1024 * unit_factor Bytes
  /\ matches {| comparison := Greater; value := 1; unit := Kilobytes |} 2000
     = matches {| comparison := Greater; value := 1024; unit := Bytes |} 2000.
Proof.
  assert (H1 : 0 <= 1 * unit_factor Kilobytes <= u64_max)
    by (split; apply Z.leb_le; reflexivity).
  assert (Hc : Greater <> Exactly) by discriminate.
  assert (He : 1 * unit_factor Kilobytes = 1024 * unit_factor Bytes) by reflexivity.
  split; [exact Hc|]. split; [exact H1|]. split; [exact He|].
  exact (size_unit_scaling Greater 1 1024 Kilobytes Bytes 2000 Hc H1 He).
Defined.

Lemma size_sign_rest_last (s rest : string) (cmp : SizeComparison) :
  sign_of s = Some (cmp, rest) -> rest = "" \/ chars_last rest = chars_last s.
Proof.
  intros Es. apply size_sign_of_spec in Es as [-> _].
  destruct (string_dec rest "") as [E|E]; [left; exact E|right].
  symmetry. apply chars_last_app_r, E.
Qed.

(** The error messages of [parse]: the empty string is the only input
    rejected as an empty filter, and any string whose last character is
    not a unit letter ([c], [k], [M], [G]) is rejected for its unit,
    before the number is read. *)
Theorem size_parse_errors (s : string) :
  (parse s = Err "Empty size filter" <-> s = "")
  /\ (forall c, chars_last s = Some c -> unit_of c = None ->
        parse s = Err "Invalid size unit. Use c (bytes), k (KB), M (MB), or G (GB)").
Proof.
  split.
  - split; [|intros ->; reflexivity].
    unfold parse. fold (sign_of s).
    destruct (sign_of s) as [[cmp rest]|] eqn:Es.
    + destruct (chars_last rest); [fold (unit_of a); destruct (unit_of a)|];
        [destruct (parse_u64 _)| |]; discriminate.
    + destruct s; [reflexivity|]. unfold sign_of in Es; cbn in Es.
      destruct (Ascii.eqb a "+"%char), (Ascii.eqb a "-"%char); discriminate.
  - intros c Hl Hu. unfold parse. fold (sign_of s).
    destruct (sign_of s) as [[cmp rest]|] eqn:Es.
    + destruct (size_sign_rest_last s rest cmp Es) as [-> | E]; [reflexivity|].
      rewrite E, Hl. fold (unit_of c). rewrite Hu. reflexivity.
    + destruct s; [discriminate|]. unfold sign_of in Es; cbn in Es.
      destruct (Ascii.eqb a "+"%char), (Ascii.eqb a "-"%char); discriminate.
Qed.

Lemma size_parse_errors_witness :
  parse "+12x" = Err "Invalid size unit. Use c (bytes), k (KB), M (MB), or G (GB)".
Proof.
  apply (proj2 (size_parse_errors "+12x") "x"%char); reflexivity.
Defined.

End filesize_extra_proofs.

Module time_extra_proofs.
Import time time_proofs time_parse_proofs str_extra_proofs.

Lemma to_duration_cmp (c c' : TimeComparison) (v : Z) (u : TimeUnit) :
  to_duration {| comparison := c; value := v; unit := u |}
  = to_duration {| comparison := c'; value := v; unit := u |}.
Proof. reflexivity. Qed.

(** The sign of the stored value is ignored: [+-5m] (value -5) and [+5m]
    select the same files, and so on for every comparison and unit. *)
Theorem time_sign_irrelevant (c : TimeComparison) (v : Z) (u : TimeUnit)
  (file_time now : Z) :
  matches {| comparison := c; value := v; unit := u |} file_time now
  = matches {| comparison := c; value := - v; unit := u |} file_time now.
Proof.
  unfold matches, to_duration, unsigned_abs; cbn [comparison value unit].
  rewrite Z.abs_opp. reflexivity.
Qed.

(** [-N<u>] and [+N<u>] never both match, and together they match every
    file but those whose age [max(0, now - file_time)] is the duration. *)
Theorem time_lesser_greater_split (v : Z) (u : TimeUnit) (file_time now : Z) :
  let d := to_duration {| comparison := Exactly; value := v; unit := u |} in
  matches {| comparison := Lesser; value := v; unit := u |} file_time now
    && matches {| comparison := Greater; value := v; unit := u |} file_time now = false
  /\ matches {| comparison := Lesser; value := v; unit := u |} file_time now
    || matches {| comparison := Greater; value := v; unit := u |} file_time now
     = negb (Z.max 0 (now - file_time) =? d).
Proof.
  intros d. unfold matches; cbn [comparison]. rewrite age_is_max.
  rewrite (to_duration_cmp Lesser Exactly), (to_duration_cmp Greater Exactly). fold d.
  set (a := Z.max 0 (now - file_time)).
  destruct (Z.ltb_spec a d), (Z.ltb_spec d a), (Z.eqb_spec a d);
    cbn; split; try reflexivity; exfalso; lia.
Qed.

Lemma to_duration_nonneg (f : TimeFilter) : 0 <= to_duration f.
Proof.
  unfold to_duration, unsigned_abs, from_secs, mul_u64.
  assert (0 < nanos_per_sec) by reflexivity. pose proof (Z.abs_nonneg (value f)).
  assert (Hm : forall x, 0 <= x mod 2 ^ 64)
    by (intros x; pose proof (Z.mod_pos_bound x (2 ^ 64) ltac:(reflexivity)); lia).
  destruct (unit f); [nia | ..]; apply Z.mul_nonneg_nonneg; [apply Hm | lia | apply Hm | lia
                                                            | apply Hm | lia].
Qed.

(** A file modified at or after [now] has age zero: no [+N<u>] filter
    matches it, and [-N<u>] matches it iff N is not zero (when N units fit
    in a [u64] count of seconds). *)
Theorem time_future_file (v : Z) (u : TimeUnit) (file_time now : Z) :
  now <= file_time ->
  matches {| comparison := Greater; value := v; unit := u |} file_time now = false
  /\ (Z.abs v * unit_secs u <= u64_max ->
      matches {| comparison := Lesser; value := v; unit := u |} file_time now
      = negb (v =? 0)).
Proof.
  intros Hn. unfold matches; cbn [comparison]. rewrite age_is_max.
  replace (Z.max 0 (now - file_time)) with 0 by lia.
  split.
  - apply Z.ltb_ge. apply to_duration_nonneg.
  - intros Ho. rewrite to_duration_exact by exact Ho. cbn [value unit].
    assert (0 < unit_secs u) by (destruct u; cbn; lia).
    assert (0 < nanos_per_sec) by reflexivity.
    destruct (Z.eqb_spec v 0) as [->|Hv]; [reflexivity|].
    apply Z.ltb_lt. assert (0 < Z.abs v) by lia. nia.
Qed.

Lemma time_future_file_witness :
  0 <= 10 /\ Z.abs 5 * unit_secs Minutes <= u64_max
  /\ matches {| comparison := Greater; value := 9223372036854775807; unit := Days |} 10 0
     = false
  /\ matches {| comparison := Lesser; value := 5; unit := Minutes |} 10 0 = true.
Proof.
  assert (H1 : 0 <= 10) by lia.
  assert (H2 : Z.abs 5 * unit_secs Minutes <= u64_max) by (apply Z.leb_le; reflexivity).
  split; [exact H1|]. split; [exact H2|].
  split; [exact (proj1 (time_future_file 9223372036854775807 Days 10 0 H1))|].
  exact (proj2 (time_future_file 5 Minutes 10 0 H1) H2).
Defined.

(** Below and above comparisons only see the duration: [+2h] and [+120m],
    [-1d] and [-24h] select the same files (no [u64] overflow). *)
Theorem time_unit_scaling (c : TimeComparison) (v1 v2 : Z) (u1 u2 : TimeUnit)
  (file_time now : Z) :
  c <> Exactly ->
  Z.abs v1 * unit_secs u1 <= u64_max ->
  Z.abs v1 * unit_secs u1 = Z.abs v2 * unit_secs u2 ->
  matches {| comparison := c; value := v1; unit := u1 |} file_time now
  = matches {| comparison := c; value := v2; unit := u2 |} file_time now.
Proof.
  intros Hc H1 He. unfold matches.
  rewrite (to_duration_exact {| comparison := c; value := v1; unit := u1 |}) by exact H1.
  rewrite (to_duration_exact {| comparison := c; value := v2; unit := u2 |})
    by (cbn [value unit]; lia).
  cbn [comparison value unit]. rewrite He.
  destruct c; [congruence|reflexivity|reflexivity].
Qed.

Lemma time_unit_scaling_witness :
  Greater <> Exactly /\ Z.abs 2 * unit_secs Hours <= u64_max
  /\ Z.abs 2 * unit_secs Hours = Z.abs 120 * unit_secs Minutes
  /\ matches {| comparison := Greater; value := 2; unit := Hours |} 0 (7201 * nanos_per_sec)
     = matches {| comparison := Greater; value := 120; unit := Minutes |} 0
         (7201 * nanos_per_sec).
Proof.
  assert (Hc : Greater <> Exactly) by discriminate.
  assert (H1 : Z.abs 2 * unit_secs Hours <= u64_max) by (apply Z.leb_le; reflexivity).
  assert (He : Z.abs 2 * unit_secs Hours = Z.abs 120 * unit_secs Minutes) by reflexivity.
  split; [exact Hc|]. split; [exact H1|]. split; [exact He|].
  exact (time_unit_scaling Greater 2 120 Hours Minutes 0 _ Hc H1 He).
Defined.

Lemma to_duration_range (f : TimeFilter) :
  i64_min <= value f <= i64_max -> 0 <= to_duration f <= u64_max * nanos_per_sec.
Proof.
  intros H. unfold to_duration, unsigned_abs, from_secs, mul_u64.
  assert (0 < nanos_per_sec) by reflexivity.
  assert (Hm : forall x, 0 <= x mod 2 ^ 64 <= u64_max)
    by (intros x; unfold u64_max; pose proof (Z.mod_pos_bound x (2 ^ 64) ltac:(reflexivity)); lia).
  unfold i64_min, i64_max, u64_max in *.
  destruct (unit f); [|specialize (Hm (Z.abs (value f) * 60))
                      |specialize (Hm ((Z.abs (value f) * 60) mod 2 ^ 64 * 60))
                      |specialize (Hm (((Z.abs (value f) * 24) mod 2 ^ 64 * 60)
                                         mod 2 ^ 64 * 60))];
    unfold u64_max in Hm; nia.
Qed.

(** An [Exactly] filter with a value in the [i64] range always matches a
    file whose age is exactly its duration: the tolerance window never
    excludes its centre, also at the saturated ends. *)
Theorem time_exactly_contains_target (v : Z) (u : TimeUnit) (file_time now : Z) :
  i64_min <= v <= i64_max ->
  Z.max 0 (now - file_time) = to_duration {| comparison := Exactly; value := v; unit := u |} ->
  matches {| comparison := Exactly; value := v; unit := u |} file_time now = true.
Proof.
  intros Hv Ha. set (f := {| comparison := Exactly; value := v; unit := u |}) in *.
  pose proof (to_duration_range f Hv) as Hr.
  unfold matches. rewrite age_is_max, tolerance_is_spec. cbn [comparison f].
  fold f. set (d := to_duration f) in *. change (unit f) with u.
  replace (Z.max 0 (now - file_time)) with d by lia.
  assert (0 <= tolerance_secs u * nanos_per_sec)
    by (unfold nanos_per_sec; destruct u; cbn; lia).
  assert (d <= duration_max)
    by (unfold duration_max; assert (0 < nanos_per_sec) by reflexivity; lia).
  unfold saturating_sub, saturating_add, Duration_ZERO.
  repeat match goal with |- context [?a <? ?b] => destruct (Z.ltb_spec a b) end;
    apply andb_true_iff; split; apply Z.leb_le; lia.
Qed.

Lemma time_exactly_contains_target_witness :
  i64_min <= 3 <= i64_max
  /\ matches {| comparison := Exactly; value := 3; unit := Days |} 0
       (3 * 86400 * nanos_per_sec) = true
  /\ matches {| comparison := Exactly; value := 0; unit := Seconds |} 7 5 = true.
Proof.
  assert (Hv : i64_min <= 3 <= i64_max) by (split; apply Z.leb_le; reflexivity).
  assert (H0 : i64_min <= 0 <= i64_max) by (split; apply Z.leb_le; reflexivity).
  split; [exact Hv|]. split.
  - apply (time_exactly_contains_target 3 Days 0 _ Hv). reflexivity.
  - apply (time_exactly_contains_target 0 Seconds 7 5 H0). reflexivity.
Defined.

Lemma time_sign_rest_last (s rest : string) (cmp : TimeComparison) :
  sign_of s = Some (cmp, rest) -> rest = "" \/ chars_last rest = chars_last s.
Proof.
  intros Es. apply time_sign_of_spec in Es as [-> _].
  destruct (string_dec rest "") as [E|E]; [left; exact E|right].
  symmetry. apply chars_last_app_r, E.
Qed.

(** The error messages of [parse]: the empty string is the only input
    rejected as an empty filter, and any string whose last character is
    not a unit letter ([s], [m], [h], [d]) is rejected for its unit,
    before the number is read. *)
Theorem time_parse_errors (s : string) :
  (parse s = Err "Empty time filter" <-> s = "")
  /\ (forall c, chars_last s = Some c -> unit_of c = None ->
        parse s = Err "Invalid time unit. Use 'm' for minutes or 'd' for days").
Proof.
  split.
  - split; [|intros ->; reflexivity].
    unfold parse. fold (sign_of s).
    destruct (sign_of s) as [[cmp rest]|] eqn:Es.
    + destruct (chars_last rest); [fold (unit_of a); destruct (unit_of a)|];
        [destruct (parse_i64 _)| |]; discriminate.
    + destruct s; [reflexivity|]. unfold sign_of in Es; cbn in Es.
      destruct (Ascii.eqb a "+"%char), (Ascii.eqb a "-"%char); discriminate.
  - intros c Hl Hu. unfold parse. fold (sign_of s).
    destruct (sign_of s) as [[cmp rest]|] eqn:Es.
    + destruct (time_sign_rest_last s rest cmp Es) as [-> | E]; [reflexivity|].
      rewrite E, Hl. fold (unit_of c). rewrite Hu. reflexivity.
    + destruct s; [discriminate|]. unfold sign_of in Es; cbn in Es.
      destruct (Ascii.eqb a "+"%char), (Ascii.eqb a "-"%char); discriminate.
Qed.

Lemma time_parse_errors_witness :
  parse "-3w" = Err "Invalid time unit. Use 'm' for minutes or 'd' for days".
Proof.
  apply (proj2 (time_parse_errors "-3w") "w"%char); reflexivity.
Defined.

End time_extra_proofs.

Module render_proofs.
Import int_proofs.

Lemma dec_value_app (s1 s2 : string) (a : Z) :
  dec_value (s1 ++ s2) a
  = match dec_value s1 a with Some x => dec_value s2 x | None => None end.
Proof.
  revert a. induction s1 as [|c r IH]; intros a; [reflexivity|].
  cbn [String.append dec_value]. destruct (to_digit c); [apply IH|reflexivity].
Qed.

Lemma str_append_assoc (a b c : string) : a ++ b ++ c = (a ++ b) ++ c.
Proof. induction a as [|x r IH]; cbn; [reflexivity|now rewrite IH]. Qed.

Lemma to_digit_char (d : Z) : 0 <= d <= 9 -> to_digit (digit_char d) = Some d.
Proof.
  intros H.
  assert (d = 0 \/ d = 1 \/ d = 2 \/ d = 3 \/ d = 4 \/ d = 5 \/ d = 6 \/ d = 7
          \/ d = 8 \/ d = 9) by lia.
  repeat match goal with
         | E : _ \/ _ |- _ => destruct E as [E|E]
         end; subst; reflexivity.
Qed.

Lemma show_dec_fuel_S (f : nat) (n : Z) :
  show_dec_fuel (S f) n
  = if n <? 10 then String (digit_char n) ""
    else show_dec_fuel f (n / 10) ++ String (digit_char (n mod 10)) "".
Proof. reflexivity. Qed.

Lemma show_dec_fuel_spec (f : nat) (n : Z) :
  0 <= n < 10 ^ Z.of_nat (S f) ->
  dec_value (show_dec_fuel (S f) n) 0 = Some n
  /\ exists c r d, show_dec_fuel (S f) n = String c r /\ to_digit c = Some d.
Proof.
  revert n. induction f as [|f IH]; intros n Hn.
  - change (10 ^ Z.of_nat 1) with 10 in Hn. cbn [show_dec_fuel].
    destruct (Z.ltb_spec n 10); [|lia].
    split.
    + cbn [dec_value]. rewrite to_digit_char by lia. reflexivity.
    + do 3 eexists. split; [reflexivity|]. apply to_digit_char. lia.
  - rewrite (show_dec_fuel_S (S f) n).
    destruct (Z.ltb_spec n 10).
    + split.
      * cbn [dec_value]. rewrite to_digit_char by lia. reflexivity.
      * do 3 eexists. split; [reflexivity|]. apply to_digit_char. lia.
    + assert (Hq : 0 <= n / 10 < 10 ^ Z.of_nat (S f)).
      { split; [apply Z.div_pos; lia|].
        apply Z.div_lt_upper_bound; [lia|].
        rewrite Nat2Z.inj_succ, Z.pow_succ_r in Hn by lia. lia. }
      destruct (IH (n / 10) Hq) as [Hv (c & r & d & Hs & Hd)].
      split.
      * rewrite dec_value_app, Hv. cbn [dec_value].
        rewrite to_digit_char by (pose proof (Z.mod_pos_bound n 10); lia).
        f_equal. pose proof (Z.div_mod n 10). lia.
      * rewrite Hs. exists c, (r ++ String (digit_char (n mod 10)) ""), d.
        split; [reflexivity|exact Hd].
Qed.

Lemma show_dec_spec (n : Z) :
  0 <= n <= u64_max ->
  dec_value (show_dec n) 0 = Some n
  /\ exists c r d, show_dec n = String c r /\ to_digit c = Some d.
Proof.
  intros H. apply show_dec_fuel_spec.
  assert (u64_max < 10 ^ Z.of_nat 20) by reflexivity. lia.
Qed.

Lemma show_dec_grammar (is_signed_ty : bool) (lo hi n : Z) :
  lo <= n <= hi -> 0 <= n <= u64_max ->
  int_grammar is_signed_ty lo hi (show_dec n) n.
Proof.
  intros Hr Hn. destruct (show_dec_spec n Hn) as [Hv (c & r & d & Hs & _)].
  exists "", (show_dec n), n. repeat split; try lia.
  - left; reflexivity.
  - rewrite Hs; discriminate.
  - exact Hv.
Qed.

Lemma show_dec_no_sign (n : Z) (u : ascii) :
  0 <= n <= u64_max ->
  starts_with_sign (show_dec n ++ String u "") = false
  /\ show_dec n ++ String u "" <> "".
Proof.
  intros Hn. destruct (show_dec_spec n Hn) as [_ (c & r & d & Hs & Hd)].
  rewrite Hs. split; [|discriminate]. cbn. exact (to_digit_not_sign c d Hd).
Qed.

End render_proofs.

Module time_render_proofs.
Import time int_proofs time_parse_proofs render_proofs.

(** Round trip: a time filter with a non-negative [i64] value is parsed
    back from the string [sign ++ decimal value ++ unit letter]. *)
Theorem time_parse_render (f : TimeFilter) :
  0 <= value f <= i64_max -> parse (time_render f) = Ok f.
Proof.
  intros H. assert (Hu : 0 <= value f <= u64_max)
    by (unfold i64_max, u64_max in *; lia).
  apply time_parse_decompose.
  exists (show_dec (value f) ++ String (unit_char (unit f)) ""), (show_dec (value f)).
  split; [|split; [reflexivity|]].
  - apply time_sign_of_spec. split.
    + unfold time_render. rewrite str_append_assoc. reflexivity.
    + intros _. apply show_dec_no_sign, Hu.
  - unfold parse_i64. apply from_str_int_spec; [apply i64_bounds|].
    apply show_dec_grammar; [unfold i64_min in *; lia|exact Hu].
Qed.

Lemma time_parse_render_witness :
  0 <= 15 <= i64_max
  /\ parse "+15m" = Ok {| comparison := Greater; value := 15; unit := Minutes |}.
Proof.
  assert (H : 0 <= 15 <= i64_max) by (split; apply Z.leb_le; reflexivity).
  split; [exact H|].
  exact (time_parse_render {| comparison := Greater; value := 15; unit := Minutes |} H).
Defined.

End time_render_proofs.

Module size_render_proofs.
Import filesize int_proofs filesize_parse_proofs render_proofs.

(** Round trip: every size filter with a [u64] value is parsed back from
    the string [sign ++ decimal value ++ unit letter]. *)
Theorem size_parse_render (f : SizeFilter) :
  0 <= value f <= u64_max -> parse (size_render f) = Ok f.
Proof.
  intros Hu. apply size_parse_decompose.
  exists (show_dec (value f) ++ String (unit_char (unit f)) ""), (show_dec (value f)).
  split; [|split; [reflexivity|]].
  - apply size_sign_of_spec. split.
    + unfold size_render. rewrite str_append_assoc. reflexivity.
    + intros _. apply show_dec_no_sign, Hu.
  - unfold parse_u64. apply from_str_int_spec; [apply u64_bounds|].
    apply show_dec_grammar; exact Hu.
Qed.

Lemma size_parse_render_witness :
  0 <= 250 <= u64_max
  /\ parse "-250k" = Ok {| comparison := Lesser; value := 250; unit := Kilobytes |}.
Proof.
  assert (H : 0 <= 250 <= u64_max) by (split; apply Z.leb_le; reflexivity).
  split; [exact H|].
  exact (size_parse_render {| comparison := Lesser; value := 250; unit := Kilobytes |} H).
Defined.

End size_render_proofs.

Module engine_proofs.
Import engine.
Local Open Scope nat_scope.

Lemma run_reach_front cfg t st st1 st2 :
  step cfg t st = Some st1 -> reach cfg st1 st2 -> reach cfg st st2.
Proof.
  intros H R. induction R as [|t' s1 s2 R IH Hs].
  - apply (reach_step cfg st t st st1 (reach_refl cfg st) H).
  - exact (reach_step cfg st t' s1 s2 IH Hs).
Qed.

Lemma run_reach cfg ts : forall st st', run cfg ts st = Some st' -> reach cfg st st'.
Proof.
  induction ts as [|t ts IH]; intros st st' H; cbn in H.
  - injection H as <-. constructor.
  - destruct (step cfg t st) as [s1|] eqn:E; [|discriminate].
    exact (run_reach_front cfg t st s1 st' E (IH s1 st' H)).
Qed.

Lemma sum_upd {A} (f : A -> nat) : forall l i a b,
  nth_error l i = Some a ->
  list_sum (map f (upd l i b)) + f a = list_sum (map f l) + f b.
Proof.
  unfold list_sum.
  induction l as [|x l IH]; intros i a b H; destruct i as [|i]; cbn in H |- *;
    try discriminate.
  - injection H as ->. lia.
  - specialize (IH i a b H). lia.
Qed.

Lemma length_upd {A} : forall (l : list A) i b, List.length (upd l i b) = List.length l.
Proof. induction l; intros [|i] b; cbn; auto. Qed.

Lemma in_upd {A} : forall (l : list A) i b x, In x (upd l i b) -> In x l \/ x = b.
Proof.
  induction l as [|y l IH]; intros [|i] b x H; cbn in H |- *; auto.
  - destruct H; auto.
  - destruct H as [-> | H]; auto. destruct (IH i b x H); auto.
Qed.

Lemma forallb_upd {A} (P : A -> bool) : forall l i b,
  forallb P l = true -> P b = true -> forallb P (upd l i b) = true.
Proof.
  intros l i b H Hb. apply forallb_forall. intros x Hx.
  destruct (in_upd l i b x Hx) as [Hl | ->]; auto.
  exact (proj1 (forallb_forall P l) H x Hl).
Qed.

Lemma nth_error_forallb {A} (P : A -> bool) l i a :
  forallb P l = true -> nth_error l i = Some a -> P a = true.
Proof.
  intros H Hn. apply (proj1 (forallb_forall P l) H). eapply nth_error_In; eauto.
Qed.

Lemma existsb_nth {A} (P : A -> bool) : forall l,
  existsb P l = true -> exists i a, nth_error l i = Some a /\ P a = true.
Proof.
  induction l as [|x l IH]; cbn; intros H; [discriminate|].
  destruct (P x) eqn:E.
  - exists 0, x. auto.
  - destruct (IH H) as [i [a [H1 H2]]]. exists (S i), a. auto.
Qed.

Lemma mem_spec x l : mem x l = true <-> In x l.
Proof.
  unfold mem. rewrite existsb_exists. split.
  - intros [y [Hy E]]. apply Nat.eqb_eq in E. subst. exact Hy.
  - intros H. exists x. split; [exact H | apply Nat.eqb_refl].
Qed.

Lemma mem_cons x t v : mem x (t :: v) = Nat.eqb x t || mem x v.
Proof. reflexivity. Qed.

Lemma filter_mem_cons t v : forall l : list nat, mem t v = false ->
  List.length (filter (fun x => negb (mem x (t :: v))) l) + count_occ Nat.eq_dec l t
  = List.length (filter (fun x => negb (mem x v)) l).
Proof.
  induction l as [|x l IH]; intros Hv; [reflexivity|].
  cbn [filter count_occ]. rewrite (mem_cons x t v).
  destruct (Nat.eq_dec x t) as [->|Hne].
  - rewrite Nat.eqb_refl, Hv. cbn [orb negb List.length]. rewrite <- (IH Hv). lia.
  - assert (E : Nat.eqb x t = false) by (apply Nat.eqb_neq; exact Hne).
    rewrite E. cbn [orb]. destruct (mem x v); cbn [negb List.length]; rewrite <- (IH Hv); lia.
Qed.

Lemma unvisited_cons cfg t v :
  t < List.length (fs cfg) -> mem t v = false ->
  unvisited cfg (t :: v) < unvisited cfg v.
Proof.
  intros Ht Hv. unfold unvisited.
  rewrite <- (filter_mem_cons t v _ Hv).
  assert (0 < count_occ Nat.eq_dec (seq 0 (List.length (fs cfg))) t).
  { apply count_occ_In. apply in_seq. lia. }
  lia.
Qed.

Section wf.
Variable cfg : Config.
Hypothesis Hwf : wf_fs cfg = true.

Lemma fs_ok_nth : forall l q j es,
  fs_ok_from cfg q l = true -> nth_error l j = Some (Some es) ->
  forallb (entry_ok cfg (q + j)) es = true.
Proof.
  induction l as [|o l IH]; intros q j es H Hn; destruct j as [|j]; cbn in Hn;
    try discriminate; cbn in H; apply andb_prop in H as [H1 H2].
  - injection Hn as ->. rewrite Nat.add_0_r. exact H1.
  - rewrite <- Nat.add_succ_comm. exact (IH (S q) j es H2 Hn).
Qed.

Lemma entries_ok p e : In e (entries cfg p) -> entry_ok cfg p e = true.
Proof.
  unfold entries, read_dir. destruct (nth_error (fs cfg) p) as [[es|]|] eqn:E;
    try (intros []).
  intros Hin. pose proof (fs_ok_nth (fs cfg) 0 p es Hwf E) as H.
  exact (proj1 (forallb_forall _ es) H e Hin).
Qed.

Lemma sub_lt p c : In (ESub c) (entries cfg p) -> c < p.
Proof. intros H. apply entries_ok in H. cbn in H. apply Nat.ltb_lt. exact H. Qed.

Lemma weight_fuel_stable : forall f g p, p < f -> p < g ->
  weight_fuel cfg f p = weight_fuel cfg g p.
Proof.
  induction f as [|f IH]; intros [|g] p Hf Hg; try lia. cbn.
  apply (f_equal (fun l => 3 + list_sum l)). apply map_ext_in.
  intros [| |c] Hin; try reflexivity.
  apply sub_lt in Hin. rewrite (IH g c) by lia. reflexivity.
Qed.

Lemma weight_eq p : weight cfg p = 3 + list_sum (map (entry_w cfg) (entries cfg p)).
Proof.
  unfold weight at 1. cbn [weight_fuel].
  apply (f_equal (fun l => 3 + list_sum l)). apply map_ext_in.
  intros [| |c] Hin; try reflexivity. unfold entry_w, weight.
  apply sub_lt in Hin. rewrite (weight_fuel_stable p (S c) c) by lia. reflexivity.
Qed.

Lemma list_sum_one x : list_sum [x] = x.
Proof. cbn. lia. Qed.

Lemma pw_app l u : pw cfg (app l [u]) = pw cfg l + (weight cfg (fst u) + 1).
Proof. unfold pw. rewrite map_app, list_sum_app. cbn [map]. rewrite list_sum_one. reflexivity. Qed.

Lemma pd_app l u : pd cfg (app l [u]) = pd cfg l + (weight cfg (fst u) + 3).
Proof. unfold pd. rewrite map_app, list_sum_app. cbn [map]. rewrite list_sum_one. reflexivity. Qed.

Lemma pw_cons u l : pw cfg (u :: l) = weight cfg (fst u) + 1 + pw cfg l.
Proof. reflexivity. Qed.

Lemma pd_cons u l : pd cfg (u :: l) = weight cfg (fst u) + 3 + pd cfg l.
Proof. reflexivity. Qed.

Lemma sum_w_cons e es :
  list_sum (map (entry_w cfg) (e :: es)) = entry_w cfg e + list_sum (map (entry_w cfg) es).
Proof. reflexivity. Qed.

Lemma entry_w_file : entry_w cfg EFile = 1.
Proof. reflexivity. Qed.

Lemma entry_w_link o : entry_w cfg (ELink o) = 1.
Proof. reflexivity. Qed.

Lemma entry_w_sub c : entry_w cfg (ESub c) = 1 + (weight cfg c + 3).
Proof. reflexivity. Qed.

Lemma set_scanner_dec st i s s' w dr a :
  nth_error (scanners st) i = Some s ->
  unvisited cfg (visited s') < unvisited cfg (visited s) \/
  (visited s' = visited s /\
   pw cfg w + pd cfg dr + scanner_pot cfg s' < pw cfg (work st) + pd cfg (dir st) + scanner_pot cfg s) ->
  decreases cfg (set_scanner st i s' w dr a) st.
Proof.
  intros Hs H. unfold decreases, mF, mP, mD, set_scanner. cbn [scanners work dir dist].
  pose proof (sum_upd (fun s => unvisited cfg (visited s)) _ i s s' Hs) as HF.
  pose proof (sum_upd (scanner_pot cfg) _ i s s' Hs) as HP.
  cbv beta in HF, HP.
  destruct H as [H | [Hv H]].
  - left. lia.
  - right. rewrite Hv in HF. split; [lia|]. left. lia.
Qed.

Lemma weight_ge p : 3 <= weight cfg p.
Proof. rewrite weight_eq. lia. Qed.

Lemma scanner_step_dec st i st' :
  forallb (scanner_links_ok cfg) (scanners st) = true ->
  step cfg (TScanner i) st = Some st' -> decreases cfg st' st.
Proof.
  intros Hok. unfold step. destruct (nth_error (scanners st) i) as [s|] eqn:Hs; [|discriminate].
  pose proof (nth_error_forallb _ _ _ _ Hok Hs) as Hl.
  destruct s as [ph vis]. unfold scanner_step. cbn [phase visited] in Hl |- *.
  destruct ph as [|[p d]|[p d] es|]; intros H.
  - destruct (work st) as [|[p d] rest] eqn:Hw.
    + destruct (dist st); try discriminate. injection H as <-.
      apply (set_scanner_dec _ _ _ _ _ _ _ Hs). right. split; [reflexivity|].
      rewrite Hw. cbn. lia.
    + injection H as <-. apply (set_scanner_dec _ _ _ _ _ _ _ Hs). right. split; [reflexivity|].
      rewrite Hw, pw_cons. cbn. lia.
  - injection H as <-. apply (set_scanner_dec _ _ _ _ _ _ _ Hs). right. split; [reflexivity|].
    cbn [scanner_pot phase]. rewrite weight_eq.
    destruct (too_deep cfg d); [cbn; lia|].
    unfold entries. destruct (read_dir cfg p); cbn; lia.
  - destruct es as [|e es].
    + injection H as <-. apply (set_scanner_dec _ _ _ _ _ _ _ Hs). right. split; [reflexivity|].
      cbn. lia.
    + cbn [forallb] in Hl. apply andb_prop in Hl as [Hle _].
      destruct e as [|[t|]|c].
      * injection H as <-. apply (set_scanner_dec _ _ _ _ _ _ _ Hs). right. split; [reflexivity|].
        unfold scanner_pot; cbn [phase]; rewrite sum_w_cons, ?entry_w_file, ?entry_w_link, ?entry_w_sub; lia.
      * destruct (follows cfg); [destruct (mem t vis) eqn:Hm|].
        -- injection H as <-. apply (set_scanner_dec _ _ _ _ _ _ _ Hs). right. split; [reflexivity|].
           unfold scanner_pot; cbn [phase]; rewrite sum_w_cons, ?entry_w_file, ?entry_w_link, ?entry_w_sub; lia.
        -- injection H as <-. apply (set_scanner_dec _ _ _ _ _ _ _ Hs). left.
           cbn [visited]. apply unvisited_cons; [|exact Hm].
           cbn in Hle. apply Nat.ltb_lt. exact Hle.
        -- injection H as <-. apply (set_scanner_dec _ _ _ _ _ _ _ Hs). right. split; [reflexivity|].
           unfold scanner_pot; cbn [phase]; rewrite sum_w_cons, ?entry_w_file, ?entry_w_link, ?entry_w_sub; lia.
      * injection H as <-. apply (set_scanner_dec _ _ _ _ _ _ _ Hs). right. split; [reflexivity|].
        unfold scanner_pot; cbn [phase]; rewrite sum_w_cons, ?entry_w_file, ?entry_w_link, ?entry_w_sub; lia.
      * injection H as <-. apply (set_scanner_dec _ _ _ _ _ _ _ Hs). right. split; [reflexivity|].
        rewrite pd_app. unfold scanner_pot; cbn [phase fst]; rewrite sum_w_cons, ?entry_w_file, ?entry_w_link, ?entry_w_sub; lia.
  - discriminate.
Qed.

Lemma dist_step_cases st st' :
  step cfg TDist st = Some st' ->
  decreases cfg st' st \/
  (exists k, 3 <= k /\ dist st = Polling k /\ dir st = [] /\
             st' = set_dist st (work st) [] (Polling (S k))).
Proof.
  unfold step, dist_step. destruct (dist st) as [k|u|] eqn:Hd; [| |discriminate].
  - destruct (dir st) as [|u rest] eqn:Hr.
    + destruct (Nat.leb 3 (S k) && Nat.eqb (active st) 0) eqn:Hc; intros H; injection H as <-.
      * left. unfold decreases, mF, mP, mD, set_dist. cbn [scanners work dir dist].
        rewrite Hd, Hr. right. split; [reflexivity|]. right. split; [reflexivity|]. lia.
      * destruct (Nat.le_gt_cases 3 k) as [Hk|Hk].
        -- right. exists k. auto.
        -- left. unfold decreases, mF, mP, mD, set_dist. cbn [scanners work dir dist].
           rewrite Hd, Hr. right. split; [reflexivity|]. right. split; [reflexivity|]. lia.
    + intros H. injection H as <-. left.
      unfold decreases, mF, mP, mD, set_dist. cbn [scanners work dir dist].
      rewrite Hd, Hr, pd_cons. right. split; [reflexivity|]. left. cbn [pdist]. lia.
  - destruct (Nat.ltb (List.length (work st)) (capacity cfg)); [|discriminate].
    intros H. injection H as <-. left.
    unfold decreases, mF, mP, mD, set_dist. cbn [scanners work dir dist].
    rewrite Hd, pw_app. right. split; [reflexivity|]. left. cbn [pdist]. lia.
Qed.

Lemma sim_measure st st' : sim st st' ->
  mF cfg st = mF cfg st' /\ mP cfg st = mP cfg st' /\ mD st = mD st'.
Proof.
  intros (Hw & Hr & Ha & Hs & Hd). unfold mF, mP, mD.
  rewrite Hw, Hr, Hs. destruct Hd as [-> | [k [k' [-> [-> [Hk Hk']]]]]].
  - auto.
  - repeat split; cbn [pdist]; lia.
Qed.

Lemma sim_refl st : sim st st.
Proof. repeat split; auto. left. reflexivity. Qed.

Lemma sim_trans a b c : sim a b -> sim b c -> sim a c.
Proof.
  intros (H1 & H2 & H3 & H4 & H5) (G1 & G2 & G3 & G4 & G5).
  repeat split; try congruence.
  destruct H5 as [-> | [k [k' [Ha [Hb [Hk Hk']]]]]]; [exact G5|].
  right. destruct G5 as [<- | [j [j' [Hb' [Hc [Hj Hj']]]]]].
  - exists k, k'. auto.
  - rewrite Hb in Hb'. injection Hb' as <-. exists k, j'. auto.
Qed.

Lemma step_cases st t st' :
  forallb (scanner_links_ok cfg) (scanners st) = true ->
  step cfg t st = Some st' -> decreases cfg st' st \/ sim st st'.
Proof.
  intros Hok H. destruct t as [i|].
  - left. exact (scanner_step_dec st i st' Hok H).
  - destruct (dist_step_cases st st' H) as [D | [k [Hk [Hd [Hr ->]]]]]; [left; exact D|].
    right. unfold sim, set_dist. cbn [work dir active scanners dist].
    repeat split; auto. right. exists k, (S k). repeat split; auto.
Qed.

Lemma decreases_sim a b c : sim b c -> decreases cfg a c -> decreases cfg a b.
Proof.
  intros Hs. destruct (sim_measure b c Hs) as (E1 & E2 & E3).
  unfold decreases. rewrite E1, E2, E3. auto.
Qed.

(** The invariant holds initially and is preserved by every step. *)
Lemma count_working_repeat s n : phase s = Idle -> count_working (repeat s n) = 0.
Proof. intros H. induction n as [|n IH]; cbn; auto. rewrite H. exact IH. Qed.

Lemma init_inv root k : Inv cfg (init cfg root k).
Proof.
  unfold Inv, init. cbn [scanners active work dist].
  split; [apply repeat_length|]. split; [rewrite count_working_repeat; reflexivity|].
  split.
  - intros Hx. exfalso. revert Hx. induction (nscanners cfg) as [|n IH]; cbn; [discriminate|exact IH].
  - induction (nscanners cfg) as [|n IH]; cbn; auto.
Qed.

Lemma existsb_upd (P : Scanner -> bool) l i b :
  existsb P (upd l i b) = true -> existsb P l = true \/ P b = true.
Proof.
  intros H. apply existsb_exists in H as [x [Hx Px]].
  destruct (in_upd l i b x Hx) as [Hl | ->]; auto.
  left. apply existsb_exists. eauto.
Qed.

Lemma count_working_upd l i a b : nth_error l i = Some a ->
  count_working (upd l i b) + (match phase a with Working _ _ => 1 | _ => 0 end)
  = count_working l + (match phase b with Working _ _ => 1 | _ => 0 end).
Proof.
  intros H. unfold count_working.
  exact (sum_upd (fun s => match phase s with Working _ _ => 1 | _ => 0 end) l i a b H).
Qed.

Lemma set_scanner_inv st i s s' w a :
  Inv cfg st -> nth_error (scanners st) i = Some s ->
  a + (match phase s with Working _ _ => 1 | _ => 0 end)
    = active st + (match phase s' with Working _ _ => 1 | _ => 0 end) ->
  (existsb is_exited (scanners st) = true \/ is_exited s' = true ->
     dist st = DExited /\ w = []) ->
  scanner_links_ok cfg s' = true ->
  forall dr, Inv cfg (set_scanner st i s' w dr a).
Proof.
  intros (I1 & I2 & I3 & I4) Hs Ha Hx Hl dr. unfold Inv, set_scanner.
  cbn [scanners active work dist].
  split; [rewrite length_upd; exact I1|].
  split; [pose proof (count_working_upd _ i s s' Hs); lia|].
  split.
  - intros E. destruct (existsb_upd _ _ i s' E); apply Hx; auto.
  - apply forallb_upd; auto.
Qed.

Lemma step_inv st t st' : Inv cfg st -> step cfg t st = Some st' -> Inv cfg st'.
Proof.
  intros HI. pose proof HI as (I1 & I2 & I3 & I4). destruct t as [i|].
  - unfold step. destruct (nth_error (scanners st) i) as [s|] eqn:Hs; [|discriminate].
    pose proof (nth_error_forallb _ _ _ _ I4 Hs) as Hl.
    destruct s as [ph vis]. unfold scanner_step. cbn [phase visited] in Hl |- *.
    destruct ph as [|[p d]|[p d] es|]; intros H.
    + destruct (work st) as [|u rest] eqn:Hw.
      * destruct (dist st) eqn:Hd; try discriminate. injection H as <-.
        apply (set_scanner_inv _ _ _ _ _ _ HI Hs); cbn; auto.
      * injection H as <-. apply (set_scanner_inv _ _ _ _ _ _ HI Hs); cbn; auto.
        intros [H|H]; [|discriminate]. destruct (I3 H) as [_ E]. congruence.
    + injection H as <-. apply (set_scanner_inv _ _ _ _ _ _ HI Hs); cbn;
        [lia | intros [Hx|Hx]; [exact (I3 Hx)|discriminate] |].
      destruct (too_deep cfg d); [reflexivity|]. unfold read_dir.
        destruct (nth_error (fs cfg) p) as [[es|]|] eqn:E; try reflexivity.
        apply forallb_forall. intros e He.
        pose proof (entries_ok p e) as Ho. unfold entries, read_dir in Ho. rewrite E in Ho.
        specialize (Ho He). destruct e as [|[t|]|c]; auto.
    + destruct es as [|e es].
      * injection H as <-. apply (set_scanner_inv _ _ _ _ _ _ HI Hs); cbn; auto.
        -- pose proof (count_working_upd _ i _ {| phase := Idle; visited := vis |} Hs) as C.
           cbn in C. lia.
        -- intros [H|H]; [exact (I3 H)|discriminate].
      * cbn [forallb] in Hl. apply andb_prop in Hl as [_ Hl].
        destruct e as [|[t|]|c];
          [| destruct (follows cfg); [destruct (mem t vis)|] | |];
          injection H as <-; apply (set_scanner_inv _ _ _ _ _ _ HI Hs); cbn; auto;
          intros [H|H]; try exact (I3 H); discriminate.
    + discriminate.
  - unfold step, dist_step. destruct (dist st) as [k|u|] eqn:Hd; [| |discriminate].
    + assert (Hx : existsb is_exited (scanners st) = false).
      { destruct (existsb is_exited (scanners st)) eqn:E; auto. destruct (I3 eq_refl). congruence. }
      destruct (dir st) as [|u rest];
        [destruct (Nat.leb 3 (S k) && Nat.eqb (active st) 0)|];
        intros H; injection H as <-; unfold Inv, set_dist; cbn [scanners active work dist];
        (split; [exact I1|]); (split; [exact I2|]);
        (split; [intros E; rewrite Hx in E; discriminate | exact I4]).
    + assert (Hx : existsb is_exited (scanners st) = false).
      { destruct (existsb is_exited (scanners st)) eqn:E; auto. destruct (I3 eq_refl). congruence. }
      destruct (Nat.ltb (List.length (work st)) (capacity cfg)); [|discriminate].
      intros H; injection H as <-; unfold Inv, set_dist; cbn [scanners active work dist].
      split; [exact I1|]. split; [exact I2|].
      split; [intros E; rewrite Hx in E; discriminate | exact I4].
Qed.

Lemma count_working_nobusy l : existsb busy l = false -> count_working l = 0.
Proof.
  induction l as [|s l IH]; cbn; auto. intros H. apply orb_false_iff in H as [H1 H2].
  unfold busy in H1. destruct (phase s); try discriminate; exact (IH H2).
Qed.

Lemma forallb_false_nth {A} (P : A -> bool) l :
  forallb P l = false -> exists i a, nth_error l i = Some a /\ P a = false.
Proof.
  intros H. destruct (existsb_nth (fun x => negb (P x)) l) as [i [a [H1 H2]]].
  - induction l as [|x l IH]; cbn in H |- *; [discriminate|].
    destruct (P x); cbn in H |- *; auto.
  - exists i, a. split; auto. destruct (P a); auto.
Qed.

Lemma nth_error_existsb_false {A} (P : A -> bool) l i a :
  existsb P l = false -> nth_error l i = Some a -> P a = false.
Proof.
  intros H Hn. destruct (P a) eqn:E; auto.
  assert (existsb P l = true) by (apply existsb_exists; exists a; split; auto; eapply nth_error_In; eauto).
  congruence.
Qed.

Lemma count_working_exited l : forallb is_exited l = true -> count_working l = 0.
Proof.
  induction l as [|s l IH]; cbn; auto. intros H. apply andb_prop in H as [H1 H2].
  unfold is_exited in H1. destruct (phase s); try discriminate. exact (IH H2).
Qed.

Lemma stopped_facts st : Inv cfg st -> 0 < nscanners cfg -> is_stopped st = true ->
  work st = [] /\ active st = 0.
Proof.
  intros (I1 & I2 & I3 & I4) HN H. unfold is_stopped in H.
  destruct (dist st); try discriminate.
  split; [|rewrite I2; exact (count_working_exited _ H)].
  destruct (scanners st) as [|s l] eqn:Hs; [cbn in I1; lia|].
  cbn in H. apply andb_prop in H as [H1 _].
  apply I3. cbn. rewrite H1. reflexivity.
Qed.

Lemma scanner_step_dist st i st' : step cfg (TScanner i) st = Some st' -> dist st' = dist st.
Proof.
  unfold step. destruct (nth_error (scanners st) i) as [s|]; [|discriminate].
  destruct s as [ph vis]. unfold scanner_step. cbn [phase visited].
  destruct ph as [|[p d]|[p d] [|[|[t|]|c] es]|]; intros H.
  - destruct (work st); [destruct (dist st) eqn:Hd|]; try discriminate; injection H as <-; cbn; congruence.
  - injection H as <-; reflexivity.
  - injection H as <-; reflexivity.
  - injection H as <-; reflexivity.
  - destruct (follows cfg); [destruct (mem t vis)|]; injection H as <-; reflexivity.
  - injection H as <-; reflexivity.
  - injection H as <-; reflexivity.
  - discriminate.
Qed.

Lemma dist_step_polling st k : dist st = Polling k -> step cfg TDist st <> None.
Proof.
  intros H. unfold step, dist_step. rewrite H.
  destruct (dir st); [destruct (Nat.leb 3 (S k) && Nat.eqb (active st) 0)|]; discriminate.
Qed.

Section live.
Variables (e : nat -> Engine) (sched : nat -> Thread) (root : nat) (k0 : option nat).
Hypothesis HN : 0 < nscanners cfg.
Hypothesis Hcap : 0 < capacity cfg.
Hypothesis He0 : e 0 = init cfg root k0.
Hypothesis Hexec : execution cfg e sched.
Hypothesis Hfair : fair cfg e sched.

Lemma exec_inv n : Inv cfg (e n).
Proof.
  induction n as [|n IH]; [rewrite He0; apply init_inv|].
  rewrite Hexec. destruct (step cfg (sched n) (e n)) eqn:E; auto.
  exact (step_inv _ _ _ IH E).
Qed.

Lemma window n : forall m, n <= m ->
  (exists j, n < j <= m /\ decreases cfg (e j) (e n)) \/ sim (e n) (e m).
Proof.
  induction m as [|m IH]; intros Hnm.
  - assert (n = 0) by lia. subst. right. apply sim_refl.
  - destruct (Nat.eq_dec n (S m)) as [<-|Hne]; [right; apply sim_refl|].
    destruct (IH ltac:(lia)) as [[j [Hj D]] | Hs].
    + left. exists j. split; [lia|exact D].
    + pose proof (Hexec m) as Ex.
      destruct (step cfg (sched m) (e m)) as [st'|] eqn:E; rewrite Ex; [|right; exact Hs].
      pose proof (exec_inv m) as (_ & _ & _ & I4).
      destruct (step_cases (e m) (sched m) st' I4 E) as [D | S'].
      * left. exists (S m). split; [lia|]. rewrite Ex. exact (decreases_sim _ _ _ Hs D).
      * right. exact (sim_trans _ _ _ Hs S').
Qed.

Lemma progress_with n t : valid_thread cfg t ->
  (forall st, sim (e n) st -> step cfg t st <> None) ->
  (forall st st', sim (e n) st -> Inv cfg st -> step cfg t st = Some st' -> decreases cfg st' st) ->
  exists j, n < j /\ decreases cfg (e j) (e n).
Proof.
  intros Hv En De. destruct (Hfair t n Hv) as [m [Hnm Hm]].
  destruct (window n m Hnm) as [[j [Hj D]] | Hs]; [exists j; split; [lia|exact D]|].
  pose proof (En (e m) Hs) as Hen.
  destruct Hm as [Hm|Hm]; [|contradiction].
  pose proof (Hexec m) as Ex. rewrite Hm in Ex.
  destruct (step cfg t (e m)) as [st'|] eqn:E; [|contradiction].
  exists (S m). split; [lia|]. rewrite Ex.
  exact (decreases_sim _ _ _ Hs (De _ _ Hs (exec_inv m) E)).
Qed.

Lemma choose_busy n i s : nth_error (scanners (e n)) i = Some s -> busy s = true ->
  exists j, n < j /\ decreases cfg (e j) (e n).
Proof.
  intros Hs Hb. apply (progress_with n (TScanner i)).
  - cbn. pose proof (exec_inv n) as (I1 & _). rewrite <- I1.
    apply nth_error_Some. congruence.
  - intros st (_ & _ & _ & Hsc & _). unfold step. rewrite <- Hsc, Hs.
    destruct s as [[|[p d]|[p d] [|[|[t|]|c] es]|] vis]; cbn in Hb; try discriminate;
      unfold scanner_step; cbn [phase visited]; try discriminate.
    destruct (follows cfg); [destruct (mem t vis)|]; discriminate.
  - intros st st' _ (_ & _ & _ & I4) E. exact (scanner_step_dec st i st' I4 E).
Qed.

Lemma choose_idle n i s : nth_error (scanners (e n)) i = Some s -> phase s = Idle ->
  work (e n) <> [] \/ dist (e n) = DExited ->
  exists j, n < j /\ decreases cfg (e j) (e n).
Proof.
  intros Hs Hp Hw. apply (progress_with n (TScanner i)).
  - cbn. pose proof (exec_inv n) as (I1 & _). rewrite <- I1.
    apply nth_error_Some. congruence.
  - intros st (Hwk & _ & _ & Hsc & Hd). unfold step. rewrite <- Hsc, Hs.
    unfold scanner_step. rewrite Hp. rewrite <- Hwk.
    destruct (work (e n)) as [|u rest]; [|discriminate].
    destruct Hw as [Hw|Hw]; [contradiction|]. rewrite Hw in Hd.
    destruct Hd as [<- | [k [k' [Hk _]]]]; [discriminate|discriminate].
  - intros st st' _ (_ & _ & _ & I4) E. exact (scanner_step_dec st i st' I4 E).
Qed.

Lemma choose_dist n : dist (e n) <> DExited -> work (e n) = [] -> active (e n) = 0 ->
  exists j, n < j /\ decreases cfg (e j) (e n).
Proof.
  intros Hd Hw Ha. apply (progress_with n TDist); [exact I| |].
  - intros st (Hwk & _ & _ & _ & Hds).
    destruct (dist st) as [k|u|] eqn:Hdst.
    + exact (dist_step_polling st k Hdst).
    + unfold step, dist_step. rewrite Hdst, <- Hwk, Hw.
      change (List.length (@nil WorkUnit)) with 0.
      rewrite (proj2 (Nat.ltb_lt 0 (capacity cfg)) Hcap). discriminate.
    + exfalso. destruct Hds as [E | [k [k' [_ [E _]]]]]; [contradiction|discriminate].
  - intros st st' (_ & _ & Hac & _) _ E.
    destruct (dist_step_cases st st' E) as [D | [k [Hk [Hdk [Hr Heq]]]]]; [exact D|].
    exfalso. unfold step, dist_step in E. rewrite Hdk, Hr in E.
    assert (C : Nat.leb 3 (S k) && Nat.eqb (active st) 0 = true).
    { apply andb_true_intro. split; [apply Nat.leb_le; lia | apply Nat.eqb_eq; congruence]. }
    rewrite C in E. injection E as E. rewrite Heq in E.
    apply (f_equal dist) in E. discriminate.
Qed.

Lemma progress n : is_stopped (e n) = false -> exists j, n < j /\ decreases cfg (e j) (e n).
Proof.
  intros Hst. pose proof (exec_inv n) as (I1 & I2 & I3 & I4).
  destruct (existsb busy (scanners (e n))) eqn:Eb.
  - destruct (existsb_nth _ _ Eb) as [i [s [Hs Hb]]]. exact (choose_busy n i s Hs Hb).
  - assert (Ha : active (e n) = 0) by (rewrite I2; exact (count_working_nobusy _ Eb)).
    destruct (work (e n)) as [|u rest] eqn:Hw.
    + destruct (dist (e n)) as [k|u|] eqn:Hd.
      * apply choose_dist; congruence.
      * apply choose_dist; congruence.
      * unfold is_stopped in Hst. rewrite Hd in Hst.
        destruct (forallb_false_nth _ _ Hst) as [i [s [Hs Hx]]].
        apply (choose_idle n i s Hs); [|right; exact Hd].
        pose proof (nth_error_existsb_false _ _ _ _ Eb Hs) as Hb.
        unfold busy in Hb. unfold is_exited in Hx. destruct (phase s); congruence.
    + destruct (scanners (e n)) as [|s l] eqn:Hsc; [cbn in I1; lia|].
      apply (choose_idle n 0 s); [rewrite Hsc; reflexivity| |left; rewrite Hw; discriminate].
      cbn in Eb. apply orb_false_iff in Eb as [Eb _].
      destruct (is_exited s) eqn:Hx.
      * exfalso. assert (C : existsb is_exited (s :: l) = true) by (cbn; rewrite Hx; reflexivity).
        destruct (I3 C) as [_ W]. discriminate.
      * unfold busy in Eb. unfold is_exited in Hx. destruct (phase s); congruence.
Qed.

Lemma live_measure : forall f p d n,
  mF cfg (e n) = f -> mP cfg (e n) = p -> mD (e n) = d -> exists m, is_stopped (e m) = true.
Proof.
  intros f. induction f as [f IHf] using (well_founded_induction lt_wf).
  intros p. induction p as [p IHp] using (well_founded_induction lt_wf).
  intros d. induction d as [d IHd] using (well_founded_induction lt_wf).
  intros n Hf Hp Hd.
  destruct (is_stopped (e n)) eqn:Hs; [exists n; exact Hs|].
  destruct (progress n Hs) as [j [_ [D | [D1 [D | [D2 D3]]]]]].
  - subst. exact (IHf (mF cfg (e j)) D _ _ j eq_refl eq_refl eq_refl).
  - subst. exact (IHp (mP cfg (e j)) D _ j D1 eq_refl eq_refl).
  - subst. exact (IHd (mD (e j)) D3 j D1 D2 eq_refl).
Qed.

Lemma live : exists n, is_stopped (e n) = true /\ work (e n) = [] /\ active (e n) = 0.
Proof.
  destruct (live_measure _ _ _ 0 eq_refl eq_refl eq_refl) as [n Hn].
  exists n. split; [exact Hn|]. exact (stopped_facts _ (exec_inv n) HN Hn).
Qed.

End live.

Lemma reach_inv root k st : reach cfg (init cfg root k) st -> Inv cfg st.
Proof.
  induction 1 as [|t st1 st2 R IH E]; [apply init_inv|]. exact (step_inv _ _ _ IH E).
Qed.

Lemma existsb_busy_calm l : count_working l = 0 ->
  forallb (fun s => match phase s with Got _ => false | _ => true end) l = true ->
  existsb busy l = false.
Proof.
  induction l as [|s l IH]; cbn; auto. intros C F. apply andb_prop in F as [F1 F2].
  unfold busy. destruct (phase s); cbn in C |- *; try discriminate; try lia; apply IH; auto.
Qed.

Lemma reach_quiet_inv root j st : reach_quiet cfg (init cfg root (Some j)) st ->
  Inv cfg st /\
  (dist st = DExited -> work st = [] /\ dir st = [] /\ existsb busy (scanners st) = false).
Proof.
  induction 1 as [|t st1 st2 R IH E Hq].
  - split; [apply init_inv|]. discriminate.
  - destruct IH as [HI J]. split; [exact (step_inv _ _ _ HI E)|]. intros Hd2.
    pose proof HI as (I1 & I2 & I3 & I4).
    destruct (dist st1) as [k1|u1|] eqn:Hd1.
    + destruct t as [i|].
      * rewrite (scanner_step_dist _ _ _ E), Hd1 in Hd2. discriminate.
      * destruct (Hq Hd2) as [C|Qt]; [discriminate|].
        unfold quiet in Qt. destruct (work st1) eqn:Hw; [|discriminate].
        unfold step, dist_step in E. rewrite Hd1 in E.
        destruct (dir st1) as [|u rest]; [|injection E as <-; discriminate].
        destruct (Nat.leb 3 (S k1) && Nat.eqb (active st1) 0) eqn:C;
          injection E as <-; [|discriminate].
        apply andb_prop in C as [_ C]. apply Nat.eqb_eq in C.
        unfold set_dist. cbn [work dir scanners]. split; [exact Hw|]. split; [reflexivity|].
        apply existsb_busy_calm; [congruence|exact Qt].
    + destruct t as [i|].
      * rewrite (scanner_step_dist _ _ _ E), Hd1 in Hd2. discriminate.
      * unfold step, dist_step in E. rewrite Hd1 in E.
        destruct (Nat.ltb _ _); [|discriminate]. injection E as <-. discriminate.
    + destruct (J eq_refl) as (Hw & Hr & Hb).
      destruct t as [i|]; [|unfold step, dist_step in E; rewrite Hd1 in E; discriminate].
      unfold step in E. destruct (nth_error (scanners st1) i) as [s|] eqn:Hs; [|discriminate].
      pose proof (nth_error_existsb_false _ _ _ _ Hb Hs) as Hbs.
      destruct s as [ph vis]. unfold scanner_step in E. cbn [phase visited] in E, Hbs.
      unfold busy in Hbs. cbn [phase] in Hbs.
      destruct ph; try discriminate.
      rewrite Hw, Hd1 in E. injection E as <-. unfold set_scanner. cbn [work dir scanners].
      split; [reflexivity|]. split; [exact Hr|].
      destruct (existsb busy (upd (scanners st1) i {| phase := Exited; visited := vis |})) eqn:X; auto.
      destruct (existsb_upd _ _ _ _ X) as [X'|X']; [congruence|discriminate].
Qed.

End wf.




End engine_proofs.
